(** * Gummy_Bears.ipynb: the Monte Carlo estimator of the Gummy Bear Problem

    A shallow embedding of the helper functions of the notebook
    (cell "Helper functions") and the properties of its specification.

    Conventions of the embedding.
    - Python integers are [Z]; [range n] is [seqZ 0 n], empty when [n <= 0].
    - [set(...)] is a [gset Z]; [len] of a list or of a set is a Python
      integer again.
    - The process-wide random source of module [random] is an explicit
      state of the world, behind the interface [RandomSource]: all that is
      known of [random.randrange(m)] for [0 < m] is that it returns an
      integer of [0, m-1] and moves the source on.
    - A Python float is modelled by the rational it denotes. The true
      division [a / b] of two integers and [statistics.mean] both return
      the correctly rounded exact result; the rounding is the interface
      [Rounding] (monotone, and exact on 0 and on 1). Signed zeros are not
      distinguished.
    - The console is the list of the lines printed so far, each line kept
      with the values interpolated in it rather than as formatted text.
      The elapsed wall-clock time printed by [run_trials] is not modelled.
    - A raised exception ends the computation; the world reached when it
      is raised is kept. *)

From Stdlib Require Import ZArith QArith Qround Lia Lqa.
From stdpp Require Import base tactics option list numbers gmap sets fin_sets.

Local Open Scope Z_scope.

(** ** Exceptions, worlds and programs *)

Inductive exn : Set :=
| ZeroDivisionError
| ValueError
| StatisticsError.

Inductive result (A : Type) : Type :=
| Ok (a : A)
| Raise (e : exn).
Arguments Ok {A} a.
Arguments Raise {A} e.

(** One printed line. *)
Inductive line : Type :=
| TrialSummary (num_samples num_packages_with_all_types : Z)
               (estimated_probability : Q)
| ResultsHeader (n m : Z)
| EstimateList (estimates : list Q)
| MeanLine (mean : Q)
| TimeTaken.

Record world (G : Type) : Type := World {
  rng : G;
  console : list line
}.
Arguments World {G} rng console.
Arguments rng {G} w.
Arguments console {G} w.

Definition prog (G A : Type) : Type := world G → result A * world G.

Definition ret {G A} (a : A) : prog G A := λ w, (Ok a, w).

Definition raise {G A} (e : exn) : prog G A := λ w, (Raise e, w).

Definition bind {G A B} (c : prog G A) (k : A → prog G B) : prog G B :=
  λ w, match c w with
       | (Ok a, w') => k a w'
       | (Raise e, w') => (Raise e, w')
       end.

Declare Scope prog_scope.
Delimit Scope prog_scope with prog.
Notation "'let*' x := c 'in' k" := (bind c (λ x, k))
  (at level 10, x name, c at level 100, k at level 200,
   format "'[' 'let*'  x  :=  c  'in' ']' '/' k") : prog_scope.
Notation "c ;;; k" := (bind c (λ _, k))
  (at level 100, k at level 200, right associativity) : prog_scope.
Local Open Scope prog_scope.

(** [print(...)] *)
Definition print {G} (l : line) : prog G () :=
  λ w, (Ok (), World (rng w) (console w ++ [l])).

(** ** The random source *)

Class RandomSource (G : Type) : Type := {
  randbelow : Z → G → Z * G;
  randbelow_range : ∀ m g, 0 < m → 0 ≤ (randbelow m g).1 < m
}.

(** ** Float rounding *)

Class Rounding : Type := {
  rnd : Q → Q;
  rnd_compat : ∀ x y, (x == y)%Q → rnd x = rnd y;
  rnd_mono : ∀ x y, (x <= y)%Q → (rnd x <= rnd y)%Q;
  rnd_0 : rnd 0%Q = 0%Q;
  rnd_1 : rnd 1%Q = 1%Q
}.

(** ** Python built-ins *)

Definition range (n : Z) : list Z := seqZ 0 n.

Definition len {A} (l : list A) : Z := Z.of_nat (length l).

Definition sum_Q (l : list Q) : Q := foldr Qplus 0%Q l.

Section Program.
Context {G : Type} {RS : RandomSource G} {RD : Rounding}.

(** [random.randrange(stop)]: "empty range" for [stop <= 0]. *)
Definition randrange (stop : Z) : prog G Z :=
  λ w, if decide (0 < stop)
       then let r := randbelow stop (rng w) in
            (Ok r.1, World r.2 (console w))
       else (Raise ValueError, w).

(** [a / b] on integers. *)
Definition truediv (a b : Z) : prog G Q :=
  if decide (b = 0) then raise ZeroDivisionError
  else ret (rnd (inject_Z a / inject_Z b)%Q).

(** [statistics.mean(data)] *)
Definition mean (data : list Q) : prog G Q :=
  if decide (len data < 1) then raise StatisticsError
  else ret (rnd (sum_Q data / inject_Z (len data))%Q).

(** [[body for i in xs]] *)
Fixpoint comprehension {A B} (xs : list A) (body : A → prog G B)
  : prog G (list B) :=
  match xs with
  | [] => ret []
  | x :: xs' =>
      let* y := body x in
      let* ys := comprehension xs' body in
      ret (y :: ys)
  end.

(** [for i in xs: acc = step i acc], the loop variable [acc] standing for
    the local variable the loop body updates. *)
Fixpoint for_loop {A S} (xs : list A) (step : A → S → prog G S) (acc : S)
  : prog G S :=
  match xs with
  | [] => ret acc
  | x :: xs' => let* acc' := step x acc in for_loop xs' step acc'
  end.

(** ** The helper functions of the notebook *)

Definition generate_gummy_bear_package_sample (package_size num_types : Z)
  : prog G (list Z) :=
  comprehension (range package_size) (λ _, randrange num_types).

Definition get_num_unique_gummy_bear_types (gummy_bear_package : list Z) : Z :=
  Z.of_nat (size (list_to_set gummy_bear_package : gset Z)).

Definition generate_samples (num_samples package_size num_types : Z)
  : prog G (list Z) :=
  comprehension (range num_samples)
    (λ _, let* p := generate_gummy_bear_package_sample package_size num_types in
          ret (get_num_unique_gummy_bear_types p)).

Definition run_single_trial (num_samples package_size num_types : Z)
    (print_results : bool) : prog G Q :=
  let* samples := generate_samples num_samples package_size num_types in
  let num_packages_with_all_types :=
    len (filter (λ s, s = num_types) samples) in
  let* estimated_probability :=
    truediv num_packages_with_all_types num_samples in
  (if print_results
   then print (TrialSummary num_samples num_packages_with_all_types
                            estimated_probability)
   else ret ());;;
  ret estimated_probability.

Definition print_estimates (estimates : list Q) (n m : Z) : prog G () :=
  print (ResultsHeader n m);;;
  print (EstimateList estimates);;;
  let* mu := mean estimates in
  print (MeanLine mu).

Definition run_trials (num_trials num_samples package_size num_types : Z)
  : prog G (list Q) :=
  let* estimates :=
    for_loop (range num_trials)
      (λ _ estimates,
         let* e := run_single_trial num_samples package_size num_types false in
         ret (estimates ++ [e]))
      [] in
  print_estimates estimates package_size num_types;;;
  print TimeTaken;;;
  ret estimates.

End Program.

(** ** Instances of the interfaces *)

(** A scripted random source: the draws are read off a list of raw
    numbers, each reduced into the requested range; an exhausted script
    keeps answering 0. Every sequence of in-range draws is the behaviour
    of some script. *)
Definition scripted_randbelow (m : Z) (script : list Z) : Z * list Z :=
  match script with
  | [] => (0, [])
  | x :: script' => (x `mod` m, script')
  end.

#[export] Program Instance scripted_source : RandomSource (list Z) :=
  {| randbelow := scripted_randbelow |}.
Next Obligation.
  intros m [|x s] Hm; simpl; [lia|]. apply Z.mod_pos_bound; lia.
Qed.

(** A linear congruential source (the constants of MINSTD). *)
Definition lcg_randbelow (m : Z) (seed : Z) : Z * Z :=
  let seed' := (48271 * seed) `mod` 2147483647 in
  (seed' `mod` m, seed').

#[export] Program Instance lcg_source : RandomSource Z :=
  {| randbelow := lcg_randbelow |}.
Next Obligation.
  intros m g Hm; simpl. apply Z.mod_pos_bound; lia.
Qed.

(** Exact arithmetic: the rational in lowest terms. *)
Program Definition exact_rounding : Rounding :=
  {| rnd := Qred |}.
Next Obligation. intros x y Hxy. by apply Qred_complete. Qed.
Next Obligation. intros x y Hxy. by rewrite !Qred_correct. Qed.
Next Obligation. reflexivity. Qed.
Next Obligation. reflexivity. Qed.

(** Round half up to a multiple of [1/k]: a fixed-point format, inexact
    on most fractions. *)
Definition round_fixed (k : positive) (x : Q) : Q :=
  Qred (Qfloor (x * inject_Z (Z.pos k) + (1 # 2))%Q # k).

Program Definition fixed_rounding (k : positive) : Rounding :=
  {| rnd := round_fixed k |}.
Next Obligation.
  intros k x y Hxy. unfold round_fixed. by rewrite Hxy.
Qed.
Next Obligation.
  intros k x y Hxy. unfold round_fixed. rewrite !Qred_correct.
  unfold Qle; cbn [Qnum Qden]. apply Z.mul_le_mono_nonneg_r; [lia|].
  apply Qfloor_resp_le, Qplus_le_l, Qmult_le_compat_r; [done|].
  unfold Qle; simpl. lia.
Qed.
Next Obligation.
  intros k. unfold round_fixed. rewrite Qmult_0_l, Qplus_0_l.
  apply (Qred_complete (0 # k) 0). reflexivity.
Qed.
Next Obligation.
  intros k. unfold round_fixed. rewrite Qmult_1_l.
  assert (Hfl : Qfloor (inject_Z (Z.pos k) + (1 # 2)) = Z.pos k).
  { unfold Qfloor, Qplus, inject_Z; simpl.
    apply eq_sym, Z.div_unique with (r := 1); lia. }
  rewrite Hfl. apply (Qred_complete (Z.pos k # k) 1).
  unfold Qeq; simpl. lia.
Qed.

(** ** The probability the trials estimate *)

(** All packages of [n] draws over the categories [0 .. m-1]; under
    independent uniform draws each of them is equally likely. *)
Fixpoint all_packages (n : nat) (m : Z) : list (list Z) :=
  match n with
  | O => [[]]
  | S n' => x ← seqZ 0 m; (x ::.) <$> all_packages n' m
  end.

Definition has_all_types (m : Z) (p : list Z) : Prop :=
  get_num_unique_gummy_bear_types p = m.

#[export] Instance has_all_types_dec m p : Decision (has_all_types m p).
Proof. unfold has_all_types. apply _. Defined.

Definition num_complete (n : nat) (m : Z) : Z :=
  len (filter (has_all_types m) (all_packages n m)).

(** The probability that a package of [n] independent uniform draws over
    [m] categories has all [m] categories: the packages with all
    categories among all packages. *)
Definition prob_all_types (n m : Z) : Q :=
  (inject_Z (num_complete (Z.to_nat n) m)
   / inject_Z (len (all_packages (Z.to_nat n) m)))%Q.

(** ** Runs of the generator and of the trial runner *)

(** The packages drawn by consecutive calls of the generator, the world
    threaded from one call to the next. *)
Inductive draws_packages {G} {RS : RandomSource G} (n m : Z)
  : world G → list (list Z) → world G → Prop :=
| draws_nil w : draws_packages n m w [] w
| draws_cons w p w1 ps w2 :
    generate_gummy_bear_package_sample n m w = (Ok p, w1) →
    draws_packages n m w1 ps w2 →
    draws_packages n m w (p :: ps) w2.

(** The estimates returned by consecutive quiet calls of the trial runner. *)
Inductive runs_trials {G} {RS : RandomSource G} {RD : Rounding} (ns n m : Z)
  : world G → list Q → world G → Prop :=
| runs_nil w : runs_trials ns n m w [] w
| runs_cons w e w1 es w2 :
    run_single_trial ns n m false w = (Ok e, w1) →
    runs_trials ns n m w1 es w2 →
    runs_trials ns n m w (e :: es) w2.

(** ** The object store

    Python hands a package to the counter by reference. The store maps
    addresses to the objects alive: lists, which a callee could change in
    place, and sets. A program on the store returns its value with the
    store it leaves; [None] is a dangling address. *)
Inductive object : Type :=
| ListObj (items : list Z)
| SetObj (items : gset Z).

(** [set(iterable)]: reads the object at [r] and allocates a new set
    object with its values, at an address not in use. *)
Definition py_set (r : positive) (store : gmap positive object)
  : option (positive * gmap positive object) :=
  match store !! r with
  | Some (ListObj items) =>
      let a := fresh (dom store) in
      Some (a, <[a := SetObj (list_to_set items)]> store)
  | Some (SetObj items) =>
      let a := fresh (dom store) in
      Some (a, <[a := SetObj items]> store)
  | None => None
  end.

(** [len(obj)]: the number of items of the list or set at [r]. *)
Definition py_len (r : positive) (store : gmap positive object)
  : option (Z * gmap positive object) :=
  match store !! r with
  | Some (ListObj items) => Some (len items, store)
  | Some (SetObj items) => Some (Z.of_nat (size items), store)
  | None => None
  end.

(** [get_num_unique_gummy_bear_types] as it runs on the store:
    [len(set(gummy_bear_package))], the package being the list object at
    the address given. *)
Definition get_num_unique_gummy_bear_types_ref
    (gummy_bear_package : positive) (store : gmap positive object)
  : option (Z * gmap positive object) :=
  match py_set gummy_bear_package store with
  | Some (s, store') => py_len s store'
  | None => None
  end.

(** All lists of [k] elements of [L]. *)
Fixpoint tuples {A} (k : nat) (L : list A) : list (list A) :=
  match k with
  | O => [[]]
  | S k' => x ← L; (x ::.) <$> tuples k' L
  end.

(** The estimate of one quiet trial on the scripted source. *)
Definition estimate_on_script {RD : Rounding} (ns n m : Z) (script : list Z) : Q :=
  match run_single_trial ns n m false (World script []) with
  | (Ok v, _) => v
  | (Raise _, _) => 0%Q
  end.

(** A trial of [ns] samples of size [n] makes [ns * n] draws. Its expected
    estimate under independent uniform draws is the average of the
    estimate over all sequences of [ns * n] draws. *)
Definition expected_estimate {RD : Rounding} (ns n m : Z) : Q :=
  let scripts := all_packages (Z.to_nat (ns * n)) m in
  (sum_Q (estimate_on_script ns n m <$> scripts) / inject_Z (len scripts))%Q.

(** The estimate a trial of [ns] samples returns when [a] of its packages
    have all types. *)
Definition estimate_of_count {RD : Rounding} (ns a : Z) : Q :=
  rnd (inject_Z a / inject_Z ns).

(** The estimates of the trials whose packages are the [k]-tuples of [L],
    summed, [a] packages with all types being counted already. *)
Definition sum_estimates {RD : Rounding} (ns m : Z) (L : list (list Z))
    (k : nat) (a : Z) : Q :=
  sum_Q ((λ t, estimate_of_count ns (a + len (filter (has_all_types m) t)))
           <$> tuples k L).

(** A package of [n >= m - 1] draws that misses category 0 only. *)
Definition all_but_zero (n : nat) (m : Z) : list Z :=
  seqZ 1 (m - 1) ++ replicate (n - Z.to_nat (m - 1)) 1.

(** A random source that also counts the draws made from it. *)
#[export] Program Instance counted_source {G} {RS : RandomSource G}
  : RandomSource (G * nat) :=
  {| randbelow m s := let r := randbelow m s.1 in (r.1, (r.2, S s.2)) |}.
Next Obligation. intros G RS m [g k] Hm; simpl. by apply randbelow_range. Qed.

(** A program whose result, draws and printed lines depend on the random
    source it starts from only, not on the lines printed before. *)
Definition console_blind {G A} (c : prog G A) : Prop :=
  ∀ g, ∃ r g' out, ∀ con, c (World g con) = (r, World g' (con ++ out)).

(** The packages of [all_packages n m] that repeat no category. *)
Definition num_injective (n : nat) (m : Z) : nat :=
  length (filter NoDup (all_packages n m)).

(** * Properties *)

(** ** The distinct-category counter *)

Lemma get_num_unique_elements (p : list Z) :
  get_num_unique_gummy_bear_types p
  = len (elements (list_to_set p : gset Z)).
Proof. reflexivity. Qed.

Lemma get_num_unique_NoDup (p d : list Z) :
  NoDup d → (∀ x, x ∈ d ↔ x ∈ p) →
  get_num_unique_gummy_bear_types p = len d.
Proof.
  intros Hd Hmem. rewrite get_num_unique_elements. unfold len. f_equal.
  apply Permutation_length, NoDup_Permutation; [apply NoDup_elements|done|].
  intros x. rewrite elem_of_elements, elem_of_list_to_set. by rewrite Hmem.
Qed.

Lemma get_num_unique_remove_dups (p : list Z) :
  get_num_unique_gummy_bear_types p = len (remove_dups p).
Proof.
  apply get_num_unique_NoDup; [apply NoDup_remove_dups|].
  intros x. apply elem_of_remove_dups.
Qed.

Lemma get_num_unique_nil : get_num_unique_gummy_bear_types [] = 0.
Proof. reflexivity. Qed.

Lemma get_num_unique_nonneg (p : list Z) :
  0 ≤ get_num_unique_gummy_bear_types p.
Proof. unfold get_num_unique_gummy_bear_types. lia. Qed.

Lemma get_num_unique_upper (m : Z) (p : list Z) :
  Forall (λ x, 0 ≤ x ≤ m - 1) p → get_num_unique_gummy_bear_types p ≤ Z.max 0 m.
Proof.
  intros Hp. unfold get_num_unique_gummy_bear_types.
  assert (Hsub : (list_to_set p : gset Z) ⊆ list_to_set (seqZ 0 m)).
  { intros x. rewrite !elem_of_list_to_set, elem_of_seqZ. intros Hx.
    rewrite Forall_forall in Hp. specialize (Hp x Hx). lia. }
  apply subseteq_size in Hsub.
  rewrite (size_list_to_set (seqZ 0 m)) in Hsub by apply NoDup_seqZ.
  rewrite length_seqZ in Hsub. lia.
Qed.

Lemma get_num_unique_pos (p : list Z) :
  p ≠ [] → 1 ≤ get_num_unique_gummy_bear_types p.
Proof.
  intros Hp. destruct p as [|x p]; [done|].
  unfold get_num_unique_gummy_bear_types.
  assert (size (list_to_set (x :: p) : gset Z) ≠ 0%nat); [|lia].
  apply size_non_empty_iff. intros Hempty.
  assert (Hx : x ∈ (list_to_set (x :: p) : gset Z)) by set_solver.
  rewrite Hempty in Hx. set_solver.
Qed.

Lemma get_num_unique_cons_ge (x : Z) (p : list Z) :
  get_num_unique_gummy_bear_types p ≤ get_num_unique_gummy_bear_types (x :: p).
Proof.
  unfold get_num_unique_gummy_bear_types. apply inj_le, subseteq_size.
  set_solver.
Qed.

(** C3: on a non-empty package of category indices in [0, m-1] the counter
    returns the number of distinct values of the package, that is the
    length of every duplicate-free listing of its values (the package with
    its duplicates removed is one), and this number lies in [1, m]. *)
Theorem get_num_unique_counts_distinct (m : Z) (p : list Z) :
  p ≠ [] →
  Forall (λ x, 0 ≤ x ≤ m - 1) p →
  (∀ d : list Z, NoDup d → (∀ x, x ∈ d ↔ x ∈ p) →
     get_num_unique_gummy_bear_types p = len d)
  ∧ get_num_unique_gummy_bear_types p = len (remove_dups p)
  ∧ 1 ≤ get_num_unique_gummy_bear_types p ≤ m.
Proof.
  intros Hne Hrange. split; [|split; [|split]].
  - intros d Hd Hmem. by apply get_num_unique_NoDup.
  - apply get_num_unique_remove_dups.
  - by apply get_num_unique_pos.
  - pose proof (get_num_unique_upper m p Hrange) as Hup.
    pose proof (get_num_unique_pos p Hne). lia.
Qed.

Lemma get_num_unique_counts_distinct_witness :
  (∀ d : list Z, NoDup d → (∀ x, x ∈ d ↔ x ∈ [2; 0; 2; 1; 0]) →
     get_num_unique_gummy_bear_types [2; 0; 2; 1; 0] = len d)
  ∧ get_num_unique_gummy_bear_types [2; 0; 2; 1; 0]
    = len (remove_dups [2; 0; 2; 1; 0])
  ∧ 1 ≤ get_num_unique_gummy_bear_types [2; 0; 2; 1; 0] ≤ 3.
Proof.
  apply (get_num_unique_counts_distinct 3 [2; 0; 2; 1; 0]).
  - discriminate.
  - repeat constructor; lia.
Defined.

Example get_num_unique_example :
  get_num_unique_gummy_bear_types [2; 0; 2; 1; 0] = 3
  ∧ get_num_unique_gummy_bear_types [7; 7; 7] = 1.
Proof. split; reflexivity. Qed.

Lemma fresh_address (store : gmap positive object) :
  store !! fresh (dom store) = None.
Proof. apply not_elem_of_dom, is_fresh. Qed.

(** One call of the counter on the store: it returns the count of the
    list at the address, allocates one set and changes no object that was
    there. *)
Lemma get_num_unique_ref_call (r : positive) (store : gmap positive object)
    (p : list Z) :
  store !! r = Some (ListObj p) →
  ∃ store1,
    get_num_unique_gummy_bear_types_ref r store
    = Some (get_num_unique_gummy_bear_types p, store1)
    ∧ store ⊆ store1.
Proof.
  intros Hr. pose proof (fresh_address store) as Hfresh.
  exists (<[fresh (dom store) := SetObj (list_to_set p)]> store). split.
  - unfold get_num_unique_gummy_bear_types_ref, py_set. rewrite Hr.
    unfold py_len. by rewrite lookup_insert_eq.
  - by apply insert_subseteq.
Qed.

(** C7: two calls of the counter on the same package return the same
    number, the count of the package, and after each call the package, as
    every object that was in the store, is as it was before. *)
Theorem get_num_unique_twice (r : positive) (store : gmap positive object)
    (p : list Z) :
  store !! r = Some (ListObj p) →
  ∃ k store1 store2,
    get_num_unique_gummy_bear_types_ref r store = Some (k, store1)
    ∧ get_num_unique_gummy_bear_types_ref r store1 = Some (k, store2)
    ∧ k = get_num_unique_gummy_bear_types p
    ∧ store1 !! r = Some (ListObj p)
    ∧ store2 !! r = Some (ListObj p)
    ∧ store ⊆ store1 ∧ store1 ⊆ store2.
Proof.
  intros Hr.
  destruct (get_num_unique_ref_call r store p Hr) as (store1 & Hcall1 & Hsub1).
  assert (Hr1 : store1 !! r = Some (ListObj p))
    by (eapply lookup_weaken; [exact Hr|exact Hsub1]).
  destruct (get_num_unique_ref_call r store1 p Hr1) as (store2 & Hcall2 & Hsub2).
  assert (Hr2 : store2 !! r = Some (ListObj p))
    by (eapply lookup_weaken; [exact Hr1|exact Hsub2]).
  by exists (get_num_unique_gummy_bear_types p), store1, store2.
Qed.

Lemma get_num_unique_twice_witness :
  ∃ k store1 store2,
    get_num_unique_gummy_bear_types_ref 1 {[ 1%positive := ListObj [3; 1; 3] ]}
      = Some (k, store1)
    ∧ get_num_unique_gummy_bear_types_ref 1 store1 = Some (k, store2)
    ∧ k = get_num_unique_gummy_bear_types [3; 1; 3]
    ∧ store1 !! 1%positive = Some (ListObj [3; 1; 3])
    ∧ store2 !! 1%positive = Some (ListObj [3; 1; 3])
    ∧ {[ 1%positive := ListObj [3; 1; 3] ]} ⊆ store1 ∧ store1 ⊆ store2.
Proof.
  apply (get_num_unique_twice 1 {[ 1%positive := ListObj [3; 1; 3] ]} [3; 1; 3]).
  reflexivity.
Defined.

Example get_num_unique_ref_script :
  get_num_unique_gummy_bear_types_ref 1 {[ 1%positive := ListObj [3; 1; 3] ]}
  = Some (2, {[ 1%positive := ListObj [3; 1; 3];
                2%positive := SetObj {[ 1; 3 ]} ]}).
Proof. vm_compute. reflexivity. Qed.

(** ** The package generator *)

Section Generator.
Context {G : Type} {RS : RandomSource G}.

Lemma randrange_ok (m : Z) (w : world G) :
  0 < m →
  ∃ x g, randrange m w = (Ok x, World g (console w)) ∧ 0 ≤ x ≤ m - 1.
Proof.
  intros Hm. unfold randrange. rewrite decide_True by done.
  pose proof (randbelow_range m (rng w) Hm).
  eexists _, _. split; [reflexivity|lia].
Qed.

Lemma randrange_raise (m : Z) (w : world G) :
  m ≤ 0 → randrange m w = (Raise ValueError, w).
Proof. intros Hm. unfold randrange. rewrite decide_False by lia. done. Qed.

Lemma draw_each_ok {A} (xs : list A) (m : Z) (w : world G) :
  0 < m →
  ∃ p g, comprehension xs (λ _, randrange m) w = (Ok p, World g (console w))
         ∧ length p = length xs
         ∧ Forall (λ x, 0 ≤ x ≤ m - 1) p.
Proof.
  intros Hm. revert w. induction xs as [|x xs IH]; intros w.
  - exists [], (rng w). destruct w; simpl. by repeat split.
  - destruct (randrange_ok m w Hm) as (y & g & Hy & Hrange).
    destruct (IH (World g (console w))) as (ys & g' & Hys & Hlen & Hall).
    exists (y :: ys), g'. simpl. unfold bind at 1. rewrite Hy.
    unfold bind at 1. rewrite Hys. simpl.
    repeat split; [by rewrite Hlen|by constructor].
Qed.

Lemma draw_each_raise {A} (x : A) (xs : list A) (m : Z) (w : world G) :
  m ≤ 0 →
  comprehension (x :: xs) (λ _, randrange m) w = (Raise ValueError, w).
Proof.
  intros Hm. simpl. unfold bind at 1. by rewrite randrange_raise.
Qed.

Lemma generate_package_ok (n m : Z) (w : world G) :
  0 < m ∨ n ≤ 0 →
  ∃ p g,
    generate_gummy_bear_package_sample n m w = (Ok p, World g (console w))
    ∧ len p = Z.max 0 n
    ∧ Forall (λ x, 0 ≤ x ≤ m - 1) p.
Proof.
  unfold generate_gummy_bear_package_sample, range. intros [Hm|Hn].
  - destruct (draw_each_ok (seqZ 0 n) m w Hm) as (p & g & Hp & Hlen & Hall).
    exists p, g. repeat split; [done| |done].
    unfold len. rewrite Hlen, length_seqZ. lia.
  - exists [], (rng w). unfold seqZ. replace (Z.to_nat n) with 0%nat by lia.
    destruct w; simpl. repeat split; [|done]. unfold len; simpl. lia.
Qed.

Lemma generate_package_raise (n m : Z) (w : world G) :
  0 < n → m ≤ 0 →
  generate_gummy_bear_package_sample n m w = (Raise ValueError, w).
Proof.
  intros Hn Hm. unfold generate_gummy_bear_package_sample, range.
  rewrite seqZ_cons by done. by apply draw_each_raise.
Qed.

(** C2: for a package size n >= 0 and m >= 1 categories the generator
    returns a package of exactly n elements, each an integer of
    [0, m-1]; it prints nothing. *)
Theorem generate_package_length_range (n m : Z) (w : world G) :
  0 ≤ n → 1 ≤ m →
  ∃ p w',
    generate_gummy_bear_package_sample n m w = (Ok p, w')
    ∧ len p = n
    ∧ Forall (λ x, 0 ≤ x ≤ m - 1) p
    ∧ console w' = console w.
Proof.
  intros Hn Hm.
  destruct (generate_package_ok n m w) as (p & g & Hp & Hlen & Hall); [lia|].
  exists p, (World g (console w)). repeat split; [done|lia|done].
Qed.

End Generator.

Lemma generate_package_length_range_witness :
  ∃ p w',
    generate_gummy_bear_package_sample 4 3 (World [5; 7; 1; 0; 3] []) = (Ok p, w')
    ∧ len p = 4
    ∧ Forall (λ x, 0 ≤ x ≤ 3 - 1) p
    ∧ console w' = [].
Proof.
  apply (generate_package_length_range 4 3 (World [5; 7; 1; 0; 3] [])); lia.
Defined.

(** ** The trial runner *)

Lemma inject_Z_div_bounds (k n : Z) :
  0 ≤ k ≤ n → 0 < n → (0 <= inject_Z k / inject_Z n <= 1)%Q.
Proof.
  intros Hk Hn. destruct n as [|n|n]; try lia.
  unfold Qle, Qdiv, Qmult, Qinv, inject_Z; simpl. lia.
Qed.

Lemma inject_Z_div_same (n : Z) : n ≠ 0 → (inject_Z n / inject_Z n == 1)%Q.
Proof.
  intros Hn. apply Qmult_inv_r. unfold Qeq, inject_Z; simpl. lia.
Qed.

Lemma inject_Z_div_zero (n : Z) : (inject_Z 0 / inject_Z n == 0)%Q.
Proof. unfold Qdiv. apply Qmult_0_l. Qed.

Section TrialRunner.
Context {G : Type} {RS : RandomSource G} {RD : Rounding}.

Lemma rnd_unit_interval (x : Q) : (0 <= x <= 1)%Q → (0 <= rnd x <= 1)%Q.
Proof.
  intros [H0 H1]. split.
  - rewrite <- rnd_0. by apply rnd_mono.
  - rewrite <- rnd_1. by apply rnd_mono.
Qed.

Lemma filter_samples (m : Z) (pkgs : list (list Z)) :
  len (filter (λ s, s = m) (get_num_unique_gummy_bear_types <$> pkgs))
  = len (filter (has_all_types m) pkgs).
Proof.
  unfold len. f_equal. induction pkgs as [|p pkgs IH]; [done|].
  rewrite fmap_cons, !filter_cons. unfold has_all_types at 1.
  destruct (decide (get_num_unique_gummy_bear_types p = m));
    simpl; by rewrite IH.
Qed.

Lemma generate_samples_steps {A} (xs : list A) (n m : Z) (w : world G) :
  xs = [] ∨ 0 < m ∨ n ≤ 0 →
  ∃ pkgs w1,
    draws_packages n m w pkgs w1
    ∧ length pkgs = length xs
    ∧ console w1 = console w
    ∧ Forall (λ p, len p = Z.max 0 n ∧ Forall (λ x, 0 ≤ x ≤ m - 1) p) pkgs
    ∧ comprehension xs
        (λ _, let* p := generate_gummy_bear_package_sample n m in
              ret (get_num_unique_gummy_bear_types p)) w
      = (Ok (get_num_unique_gummy_bear_types <$> pkgs), w1).
Proof.
  intros Hok. revert w. induction xs as [|x xs IH]; intros w.
  - exists [], w. repeat split; [constructor|constructor].
  - destruct Hok as [?|Hok]; [done|].
    destruct (generate_package_ok n m w Hok) as (p & g & Hp & Hlen & Hall).
    destruct (IH (or_intror Hok) (World g (console w)))
      as (pkgs & w1 & Hdraw & Hlens & Hcon & Hpk & Hrun).
    exists (p :: pkgs), w1. repeat split.
    + by econstructor.
    + simpl. by rewrite Hlens.
    + done.
    + by constructor.
    + simpl. unfold bind at 1. unfold bind at 1. rewrite Hp.
      unfold ret at 1. unfold bind at 1. rewrite Hrun. done.
Qed.

Lemma generate_samples_ok (ns n m : Z) (w : world G) :
  ns ≤ 0 ∨ 0 < m ∨ n ≤ 0 →
  ∃ pkgs w1,
    draws_packages n m w pkgs w1
    ∧ len pkgs = Z.max 0 ns
    ∧ console w1 = console w
    ∧ Forall (λ p, len p = Z.max 0 n ∧ Forall (λ x, 0 ≤ x ≤ m - 1) p) pkgs
    ∧ generate_samples ns n m w
      = (Ok (get_num_unique_gummy_bear_types <$> pkgs), w1).
Proof.
  intros Hok.
  destruct (generate_samples_steps (range ns) n m w)
    as (pkgs & w1 & Hdraw & Hlen & Hcon & Hpk & Hrun).
  { destruct Hok as [Hns|Hok]; [left|by right].
    unfold range, seqZ. by replace (Z.to_nat ns) with 0%nat by lia. }
  exists pkgs, w1. repeat split; try done.
  unfold len. rewrite Hlen. unfold range. rewrite length_seqZ. lia.
Qed.

Lemma generate_samples_raise (ns n m : Z) (w : world G) :
  0 < ns → 0 < n → m ≤ 0 →
  generate_samples ns n m w = (Raise ValueError, w).
Proof.
  intros Hns Hn Hm. unfold generate_samples, range.
  rewrite seqZ_cons by done. simpl. unfold bind at 1. unfold bind at 1.
  by rewrite generate_package_raise.
Qed.

(** What a call of the trial runner does whenever no draw is made from an
    empty range and the number of samples is not zero. *)
Lemma run_single_trial_ok (ns n m : Z) (w : world G) :
  ns ≠ 0 → ns < 0 ∨ 0 < m ∨ n ≤ 0 →
  ∃ pkgs w1,
    draws_packages n m w pkgs w1
    ∧ len pkgs = Z.max 0 ns
    ∧ console w1 = console w
    ∧ Forall (λ p, len p = Z.max 0 n ∧ Forall (λ x, 0 ≤ x ≤ m - 1) p) pkgs
    ∧ let k := len (filter (has_all_types m) pkgs) in
      let v := rnd (inject_Z k / inject_Z ns) in
      ∀ b : bool,
        run_single_trial ns n m b w
        = (Ok v, World (rng w1)
                   (console w ++ if b then [TrialSummary ns k v] else [])).
Proof.
  intros Hns Hok.
  destruct (generate_samples_ok ns n m w)
    as (pkgs & w1 & Hdraw & Hlen & Hcon & Hpk & Hrun).
  { destruct Hok as [?|?]; [left; lia|by right]. }
  exists pkgs, w1. repeat split; try done.
  intros k v b. unfold run_single_trial, bind at 1. rewrite Hrun.
  rewrite !filter_samples. fold k. unfold truediv. rewrite decide_False by done.
  unfold bind at 1, ret at 1. fold v.
  destruct w1 as [g1 c1]. simpl in Hcon. subst c1. simpl.
  destruct b; simpl; unfold bind, print, ret; simpl; [done|].
  by rewrite app_nil_r.
Qed.

Lemma run_single_trial_zero (n m : Z) (b : bool) (w : world G) :
  run_single_trial 0 n m b w = (Raise ZeroDivisionError, w).
Proof. reflexivity. Qed.

Lemma run_single_trial_empty_range (ns n m : Z) (b : bool) (w : world G) :
  0 < ns → 0 < n → m ≤ 0 →
  run_single_trial ns n m b w = (Raise ValueError, w).
Proof.
  intros Hns Hn Hm. unfold run_single_trial, bind at 1.
  by rewrite generate_samples_raise.
Qed.

End TrialRunner.

Section TrialRunnerClaims.
Context {G : Type} {RS : RandomSource G} {RD : Rounding}.

(** C1: for num_samples > 0, package_size >= 1 and num_types >= 1 the trial
    runner draws num_samples packages one after the other and returns the
    number of those whose distinct-category count equals num_types, divided
    (as floats are) by num_samples; the value lies in [0, 1]. *)
Theorem run_single_trial_fraction (ns n m : Z) (b : bool) (w : world G) :
  0 < ns → 1 ≤ n → 1 ≤ m →
  ∃ pkgs w1 v w2,
    draws_packages n m w pkgs w1
    ∧ len pkgs = ns
    ∧ run_single_trial ns n m b w = (Ok v, w2)
    ∧ rng w2 = rng w1
    ∧ v = rnd (inject_Z (len (filter (has_all_types m) pkgs)) / inject_Z ns)
    ∧ (0 <= v <= 1)%Q.
Proof.
  intros Hns Hn Hm.
  destruct (run_single_trial_ok ns n m w)
    as (pkgs & w1 & Hdraw & Hlen & Hcon & Hpk & Hrun); [lia|right; left; lia|].
  simpl in Hrun. eexists pkgs, w1, _, _.
  split; [done|]. split; [lia|]. split; [exact (Hrun b)|].
  split; [done|]. split; [done|].
  apply rnd_unit_interval, inject_Z_div_bounds; [|done].
  unfold len in *. pose proof (length_filter (has_all_types m) pkgs). lia.
Qed.

(** C6: with package_size = num_types = 1 every trial of num_samples > 0
    samples returns the estimate 1 exactly. *)
Theorem run_single_trial_one_one (ns : Z) (b : bool) (w : world G) :
  0 < ns → ∃ w', run_single_trial ns 1 1 b w = (Ok 1%Q, w').
Proof.
  intros Hns.
  destruct (run_single_trial_ok ns 1 1 w)
    as (pkgs & w1 & Hdraw & Hlen & Hcon & Hpk & Hrun); [lia|right; left; lia|].
  simpl in Hrun. eexists. rewrite Hrun. do 2 f_equal.
  assert (Hall : filter (has_all_types 1) pkgs = pkgs).
  { clear -Hpk. induction Hpk as [|p pkgs [Hlen Hrange] _ IH]; [done|].
    rewrite filter_cons, decide_True; [by rewrite IH|].
    unfold has_all_types.
    assert (Hne : p ≠ []) by (intros ->; unfold len in Hlen; simpl in Hlen; lia).
    pose proof (get_num_unique_pos p Hne).
    pose proof (get_num_unique_upper 1 p Hrange). lia. }
  rewrite Hall, Hlen, Z.max_r by lia. rewrite <- rnd_1. apply rnd_compat, inject_Z_div_same. lia.
Qed.

(** With package_size = 0 and num_types >= 1 no package has all types. *)
Lemma run_single_trial_size_zero (ns m : Z) (b : bool) (w : world G) :
  0 < ns → 1 ≤ m →
  ∃ w', run_single_trial ns 0 m b w = (Ok 0%Q, w') ∧ rng w' = rng w.
Proof.
  intros Hns Hm.
  destruct (run_single_trial_ok ns 0 m w)
    as (pkgs & w1 & Hdraw & Hlen & Hcon & Hpk & Hrun); [lia|right; left; lia|].
  simpl in Hrun. eexists. rewrite Hrun. split.
  - do 2 f_equal.
    assert (Hnone : filter (has_all_types m) pkgs = []).
    { clear -Hpk Hm. induction Hpk as [|p pkgs [Hlen Hrange] _ IH]; [done|].
      rewrite filter_cons, decide_False; [done|].
      destruct p; [|unfold len in Hlen; simpl in Hlen; lia].
      unfold has_all_types. rewrite get_num_unique_nil. lia. }
    rewrite Hnone. rewrite <- rnd_0. apply rnd_compat, inject_Z_div_zero.
  - simpl. clear -Hdraw. induction Hdraw as [|w p w1 ps w2 Hp _ IH]; [done|].
    rewrite IH. unfold generate_gummy_bear_package_sample in Hp.
    simpl in Hp. by inversion Hp.
Qed.

(** C9: the verbose flag does not influence the result: from the same
    world the trial runner returns the same estimate and leaves the random
    source in the same state with and without the flag; without it nothing
    is printed, with it exactly one line is. *)
Theorem run_single_trial_verbose_irrelevant (ns n m : Z) (w : world G) :
  0 < ns → 1 ≤ n → 1 ≤ m →
  ∃ v g k,
    run_single_trial ns n m false w = (Ok v, World g (console w))
    ∧ run_single_trial ns n m true w
      = (Ok v, World g (console w ++ [TrialSummary ns k v])).
Proof.
  intros Hns Hn Hm.
  destruct (run_single_trial_ok ns n m w)
    as (pkgs & w1 & Hdraw & Hlen & Hcon & Hpk & Hrun); [lia|right; left; lia|].
  simpl in Hrun. eexists _, _, _.
  rewrite !Hrun, app_nil_r. done.
Qed.

(** C10: the counter returns 0 on the empty package, and so with
    package_size = 0 and num_types >= 1 every trial of num_samples > 0
    samples returns the estimate 0 exactly, raising nothing (and drawing
    nothing from the random source). *)
Theorem empty_package_estimate (ns m : Z) (b : bool) (w : world G) :
  0 < ns → 1 ≤ m →
  get_num_unique_gummy_bear_types [] = 0
  ∧ ∃ w', run_single_trial ns 0 m b w = (Ok 0%Q, w') ∧ rng w' = rng w.
Proof.
  intros Hns Hm. split; [apply get_num_unique_nil|].
  by apply run_single_trial_size_zero.
Qed.

(** C5, as the code has it: a call with all inputs positive returns a
    value; num_samples = 0 raises ZeroDivisionError, whatever the other
    inputs; num_types <= 0 raises ValueError, at the first draw, when
    num_samples >= 1 and package_size >= 1; and a call raises in these two
    cases only. *)
Theorem run_single_trial_failure_modes (ns n m : Z) (b : bool) (w : world G) :
  (0 < ns → 0 < n → 0 < m → ∃ v w', run_single_trial ns n m b w = (Ok v, w'))
  ∧ (ns = 0 → run_single_trial ns n m b w = (Raise ZeroDivisionError, w))
  ∧ (0 < ns → 0 < n → m ≤ 0 →
     run_single_trial ns n m b w = (Raise ValueError, w))
  ∧ ((∃ e w', run_single_trial ns n m b w = (Raise e, w'))
     ↔ ns = 0 ∨ (0 < ns ∧ 0 < n ∧ m ≤ 0)).
Proof.
  assert (Hok : ns ≠ 0 → ns < 0 ∨ 0 < m ∨ n ≤ 0 →
                ∃ v w', run_single_trial ns n m b w = (Ok v, w')).
  { intros Hns Hcase.
    destruct (run_single_trial_ok ns n m w Hns Hcase)
      as (pkgs & w1 & _ & _ & _ & _ & Hrun).
    simpl in Hrun. eexists _, _. apply Hrun. }
  split; [|split; [|split; [|split]]].
  - intros Hns Hn Hm. apply Hok; lia.
  - intros ->. apply run_single_trial_zero.
  - apply run_single_trial_empty_range.
  - intros (e & w' & Hraise).
    destruct (decide (ns = 0)) as [|Hns]; [by left|right].
    destruct (decide (0 < ns ∧ 0 < n ∧ m ≤ 0)) as [|Hcase]; [done|].
    destruct Hok as (v & w'' & Hv); [done|lia|]. congruence.
  - intros [->|(Hns & Hn & Hm)].
    + eexists _, _. apply run_single_trial_zero.
    + eexists _, _. by apply run_single_trial_empty_range.
Qed.

End TrialRunnerClaims.

(** ** The trial aggregator *)

Section TrialAggregator.
Context {G : Type} {RS : RandomSource G} {RD : Rounding}.

Lemma trials_loop {A} (xs : list A) (ns n m : Z) (acc : list Q) (w : world G) :
  ns ≠ 0 → ns < 0 ∨ 0 < m ∨ n ≤ 0 →
  ∃ es w1,
    runs_trials ns n m w es w1
    ∧ length es = length xs
    ∧ console w1 = console w
    ∧ for_loop xs
        (λ _ estimates,
           let* e := run_single_trial ns n m false in
           ret (estimates ++ [e])) acc w
      = (Ok (acc ++ es), w1).
Proof.
  intros Hns Hcase. revert acc w. induction xs as [|x xs IH]; intros acc w.
  - exists [], w. rewrite app_nil_r. repeat split. constructor.
  - destruct (run_single_trial_ok ns n m w Hns Hcase)
      as (pkgs & w1 & _ & _ & Hcon & _ & Hrun).
    simpl in Hrun. specialize (Hrun false). rewrite app_nil_r in Hrun.
    destruct (IH (acc ++ [rnd (inject_Z (len (filter (has_all_types m) pkgs))
                               / inject_Z ns)])
                 (World (rng w1) (console w)))
      as (es & w2 & Hruns & Hlen & Hcon2 & Hloop).
    eexists (_ :: es), w2. repeat split.
    + econstructor; [exact Hrun|exact Hruns].
    + simpl. by rewrite Hlen.
    + done.
    + simpl. unfold bind at 1. unfold bind at 1. rewrite Hrun.
      unfold ret at 1. rewrite Hloop. by rewrite <- app_assoc.
Qed.

(** C4, for at least one trial: run_trials returns the estimates of
    num_trials consecutive trials, in the order the trials ran, and the
    mean it prints is the (float) arithmetic mean of the returned
    sequence. *)
Theorem run_trials_estimates (nt ns n m : Z) (w : world G) :
  1 ≤ nt → 0 < ns → 1 ≤ n → 1 ≤ m →
  ∃ es w1 w',
    runs_trials ns n m w es w1
    ∧ len es = nt
    ∧ run_trials nt ns n m w = (Ok es, w')
    ∧ rng w' = rng w1
    ∧ console w'
      = console w ++ [ResultsHeader n m; EstimateList es;
                      MeanLine (rnd (sum_Q es / inject_Z nt)); TimeTaken].
Proof.
  intros Hnt Hns Hn Hm.
  destruct (trials_loop (range nt) ns n m [] w)
    as (es & w1 & Hruns & Hlen & Hcon & Hloop); [lia|right; left; lia|].
  assert (Hlen' : len es = nt).
  { unfold len. rewrite Hlen. unfold range. rewrite length_seqZ. lia. }
  simpl in Hloop. destruct w1 as [g1 c1]. simpl in Hcon. subst c1.
  eexists es, _, _. split; [exact Hruns|]. split; [done|].
  unfold run_trials, bind at 1. rewrite Hloop.
  unfold print_estimates, mean. rewrite decide_False by lia. rewrite Hlen'.
  unfold bind, print, ret; simpl. rewrite <- !app_assoc. simpl. done.
Qed.

End TrialAggregator.

(** ** The claims at concrete inputs

    The random source is a script, the arithmetic exact. *)

Lemma run_single_trial_fraction_witness :
  ∃ pkgs w1 v w2,
    draws_packages 2 2 (World [5; 7; 1; 0; 3; 2] []) pkgs w1
    ∧ len pkgs = 3
    ∧ run_single_trial (RD:=exact_rounding) 3 2 2 true
        (World [5; 7; 1; 0; 3; 2] []) = (Ok v, w2)
    ∧ rng w2 = rng w1
    ∧ v = rnd (Rounding:=exact_rounding)
            (inject_Z (len (filter (has_all_types 2) pkgs)) / inject_Z 3)
    ∧ (0 <= v <= 1)%Q.
Proof.
  apply (run_single_trial_fraction (RD:=exact_rounding) 3 2 2 true
           (World [5; 7; 1; 0; 3; 2] [])); lia.
Defined.

Example generate_package_lcg :
  generate_gummy_bear_package_sample 6 12 (World (G:=Z) 42 [])
  = (Ok [6; 3; 5; 11; 2; 5], World 2076553157 []).
Proof. vm_compute. reflexivity. Qed.

Example run_single_trial_script :
  run_single_trial (RD:=exact_rounding) 3 2 2 true (World [5; 7; 1; 0; 3; 2] [])
  = (Ok (2 # 3)%Q, World [] [TrialSummary 3 2 (2 # 3)%Q]).
Proof. vm_compute. reflexivity. Qed.

Lemma run_single_trial_one_one_witness :
  ∃ w', run_single_trial (RD:=exact_rounding) 4 1 1 false
          (World [5; 7; 1] []) = (Ok 1%Q, w').
Proof.
  apply (run_single_trial_one_one (RD:=exact_rounding) 4 false
           (World [5; 7; 1] [])); lia.
Defined.

Lemma run_single_trial_verbose_irrelevant_witness :
  ∃ v g k,
    run_single_trial (RD:=exact_rounding) 2 3 2 false (World [5; 7; 1; 0; 3; 2] [])
      = (Ok v, World g [])
    ∧ run_single_trial (RD:=exact_rounding) 2 3 2 true (World [5; 7; 1; 0; 3; 2] [])
      = (Ok v, World g ([] ++ [TrialSummary 2 k v])).
Proof.
  apply (run_single_trial_verbose_irrelevant (RD:=exact_rounding) 2 3 2
           (World [5; 7; 1; 0; 3; 2] [])); lia.
Defined.

Lemma empty_package_estimate_witness :
  get_num_unique_gummy_bear_types [] = 0
  ∧ ∃ w', run_single_trial (RD:=exact_rounding) 5 0 3 false (World [4; 2] [])
          = (Ok 0%Q, w')
          ∧ rng w' = [4; 2].
Proof.
  apply (empty_package_estimate (RD:=exact_rounding) 5 3 false
           (World [4; 2] [])); lia.
Defined.

(** C5 as the specification words it fails: with num_types = 0 and
    package_size = 0 the call returns 1 and raises nothing, every package
    being empty and so of 0 = num_types distinct categories; and where
    num_types = 0 does make the call fail, what is raised is the
    ValueError of the empty range, not a division by zero. *)
Lemma run_single_trial_zero_types_returns :
  run_single_trial (RD:=exact_rounding) 1 0 0 false (World [5; 7] [])
    = (Ok 1%Q, World [5; 7] [])
  ∧ run_single_trial (RD:=exact_rounding) 1 1 0 false (World [5; 7] [])
    = (Raise ValueError, World [5; 7] []).
Proof. repeat split; vm_compute; reflexivity. Qed.

Lemma run_single_trial_failure_modes_witness :
  (∃ v w', run_single_trial (RD:=exact_rounding) 2 2 2 false
             (World [5; 7; 1; 0] []) = (Ok v, w'))
  ∧ run_single_trial (RD:=exact_rounding) 0 2 2 false (World [5; 7; 1; 0] [])
    = (Raise ZeroDivisionError, World [5; 7; 1; 0] [])
  ∧ run_single_trial (RD:=exact_rounding) 2 2 0 false (World [5; 7; 1; 0] [])
    = (Raise ValueError, World [5; 7; 1; 0] []).
Proof.
  split; [|split].
  - apply (run_single_trial_failure_modes (RD:=exact_rounding) 2 2 2 false
             (World [5; 7; 1; 0] [])); lia.
  - apply (run_single_trial_failure_modes (RD:=exact_rounding) 0 2 2 false
             (World [5; 7; 1; 0] [])); lia.
  - apply (run_single_trial_failure_modes (RD:=exact_rounding) 2 2 0 false
             (World [5; 7; 1; 0] [])); lia.
Defined.

(** C4 fails for num_trials = 0: the two first lines are printed, then
    [statistics.mean] raises on the empty sequence and nothing is
    returned. *)
Lemma run_trials_zero_raises :
  run_trials (RD:=exact_rounding) 0 1 1 1 (World [5; 7] [])
  = (Raise StatisticsError,
     World [5; 7] [ResultsHeader 1 1; EstimateList []]).
Proof. vm_compute. reflexivity. Qed.

Lemma run_trials_estimates_witness :
  ∃ es w1 w',
    runs_trials (RD:=exact_rounding) 2 2 2 (World [5; 7; 1; 0; 3; 2; 9; 4] []) es w1
    ∧ len es = 2
    ∧ run_trials (RD:=exact_rounding) 2 2 2 2 (World [5; 7; 1; 0; 3; 2; 9; 4] [])
      = (Ok es, w')
    ∧ rng w' = rng w1
    ∧ console w'
      = [] ++ [ResultsHeader 2 2; EstimateList es;
               MeanLine (rnd (Rounding:=exact_rounding) (sum_Q es / inject_Z 2));
               TimeTaken].
Proof.
  apply (run_trials_estimates (RD:=exact_rounding) 2 2 2 2
           (World [5; 7; 1; 0; 3; 2; 9; 4] [])); lia.
Defined.

Example run_trials_script :
  run_trials (RD:=exact_rounding) 2 2 2 2 (World [5; 7; 1; 0; 3; 2; 9; 4] [])
  = (Ok [(1 # 2)%Q; 1%Q],
     World [] [ResultsHeader 2 2; EstimateList [(1 # 2)%Q; 1%Q];
               MeanLine (3 # 4)%Q; TimeTaken]).
Proof. vm_compute. reflexivity. Qed.

(** ** The probability that is estimated *)

Lemma all_packages_spec (n : nat) (m : Z) (p : list Z) :
  p ∈ all_packages n m ↔ length p = n ∧ Forall (λ x, 0 ≤ x ≤ m - 1) p.
Proof.
  revert p. induction n as [|n IH]; intros p; simpl.
  - rewrite list_elem_of_singleton. split.
    + intros ->. by split.
    + intros [Hlen _]. by destruct p.
  - rewrite list_elem_of_bind. split.
    + intros (x & Hp & Hx). apply list_elem_of_fmap in Hp as (q & -> & Hq).
      apply IH in Hq as [Hlen Hall]. apply elem_of_seqZ in Hx.
      split; [simpl; by rewrite Hlen|]. constructor; [lia|done].
    + intros [Hlen Hall]. destruct p as [|x q]; [done|].
      inversion Hall as [|? ? Hx Hq]; subst. exists x. split.
      * apply list_elem_of_fmap. exists q. split; [done|].
        apply IH. split; [|done]. simpl in Hlen. lia.
      * apply elem_of_seqZ. lia.
Qed.

Lemma length_all_packages (n : nat) (m : Z) :
  0 ≤ m → len (all_packages n m) = m ^ Z.of_nat n.
Proof.
  intros Hm. unfold len. induction n as [|n IH]; [done|].
  rewrite Nat2Z.inj_succ, Z.pow_succ_r by lia. rewrite <- IH.
  simpl. generalize (all_packages n m) as L. intros L.
  assert (Hgen : ∀ xs : list Z,
            Z.of_nat (length (xs ≫= λ x, (x ::.) <$> L))
            = Z.of_nat (length xs) * Z.of_nat (length L)).
  { induction xs as [|x xs IHxs]; [done|].
    rewrite bind_cons, length_app, length_fmap. simpl length. lia. }
  rewrite Hgen, length_seqZ. lia.
Qed.

Lemma filter_cons_fmap (P : list Z → Prop) `{!∀ p, Decision (P p)}
    (x : Z) (L : list (list Z)) :
  length (filter P ((x ::.) <$> L)) = length (filter (λ p, P (x :: p)) L).
Proof.
  induction L as [|p L IH]; [done|].
  rewrite fmap_cons, !filter_cons.
  destruct (decide (P (x :: p))); simpl; by rewrite IH.
Qed.

Lemma filter_length_mono {A} (P Q : A → Prop)
    `{!∀ a, Decision (P a)} `{!∀ a, Decision (Q a)} (L : list A) :
  (∀ a, a ∈ L → P a → Q a) →
  (length (filter P L) ≤ length (filter Q L))%nat.
Proof.
  induction L as [|a L IH]; intros HPQ; [done|].
  rewrite !filter_cons.
  assert (IH' : (length (filter P L) ≤ length (filter Q L))%nat).
  { apply IH. intros b Hb. apply HPQ. by right. }
  destruct (decide (P a)) as [HP|HP], (decide (Q a)) as [HQ|HQ]; simpl; try lia.
  exfalso. apply HQ, HPQ; [by left|done].
Qed.

Lemma filter_length_strict {A} (P Q : A → Prop)
    `{!∀ a, Decision (P a)} `{!∀ a, Decision (Q a)} (L : list A) (a0 : A) :
  (∀ a, a ∈ L → P a → Q a) →
  a0 ∈ L → Q a0 → ¬ P a0 →
  (length (filter P L) < length (filter Q L))%nat.
Proof.
  induction L as [|a L IH]; intros HPQ Hin HQ0 HP0; [by inversion Hin|].
  rewrite !filter_cons.
  assert (Hmono : (length (filter P L) ≤ length (filter Q L))%nat).
  { apply filter_length_mono. intros b Hb. apply HPQ. by right. }
  apply elem_of_cons in Hin as [<-|Hin].
  - rewrite decide_False, decide_True by done. simpl. lia.
  - assert (IH' : (length (filter P L) < length (filter Q L))%nat).
    { apply IH; try done. intros b Hb. apply HPQ. by right. }
    destruct (decide (P a)) as [HP|HP], (decide (Q a)) as [HQ|HQ];
      simpl; try lia.
    exfalso. apply HQ, HPQ; [by left|done].
Qed.

Lemma get_num_unique_lower (d p : list Z) :
  NoDup d → (∀ x, x ∈ d → x ∈ p) → len d ≤ get_num_unique_gummy_bear_types p.
Proof.
  intros Hd Hsub. unfold get_num_unique_gummy_bear_types, len.
  rewrite <- (size_list_to_set (C:=gset Z) d) by done.
  apply inj_le, subseteq_size. intros x.
  rewrite !elem_of_list_to_set. apply Hsub.
Qed.

Lemma get_num_unique_within (d p : list Z) :
  NoDup d → (∀ x, x ∈ p → x ∈ d) → get_num_unique_gummy_bear_types p ≤ len d.
Proof.
  intros Hd Hsub. unfold get_num_unique_gummy_bear_types, len.
  rewrite <- (size_list_to_set (C:=gset Z) d) by done.
  apply inj_le, subseteq_size. intros x.
  rewrite !elem_of_list_to_set. apply Hsub.
Qed.

(** A package with all types keeps them when one more draw is added. *)
Lemma has_all_types_cons (m x : Z) (p : list Z) :
  0 ≤ x ≤ m - 1 → Forall (λ y, 0 ≤ y ≤ m - 1) p →
  has_all_types m p → has_all_types m (x :: p).
Proof.
  unfold has_all_types. intros Hx Hp Hall.
  pose proof (get_num_unique_cons_ge x p).
  pose proof (get_num_unique_upper m (x :: p) (Forall_cons_2 _ _ _ Hx Hp)).
  lia.
Qed.

Lemma all_but_zero_spec (n : nat) (m : Z) :
  2 ≤ m → m - 1 ≤ Z.of_nat n →
  all_but_zero n m ∈ all_packages n m
  ∧ ¬ has_all_types m (all_but_zero n m)
  ∧ has_all_types m (0 :: all_but_zero n m).
Proof.
  intros Hm Hn.
  assert (Hrange : Forall (λ x, 1 ≤ x ≤ m - 1) (all_but_zero n m)).
  { apply Forall_app. split.
    - apply Forall_forall. intros x Hx. apply elem_of_seqZ in Hx. lia.
    - apply Forall_replicate. lia. }
  assert (Hrange0 : Forall (λ x, 0 ≤ x ≤ m - 1) (all_but_zero n m)).
  { eapply Forall_impl; [exact Hrange|]. simpl. lia. }
  split; [|split].
  - apply all_packages_spec. split; [|done].
    unfold all_but_zero. rewrite length_app, length_seqZ, length_replicate. lia.
  - unfold has_all_types.
    pose proof (get_num_unique_within (seqZ 1 (m - 1)) (all_but_zero n m)
                  (NoDup_seqZ _ _)) as Hle.
    unfold len in Hle. rewrite length_seqZ in Hle.
    assert (get_num_unique_gummy_bear_types (all_but_zero n m)
            ≤ Z.of_nat (Z.to_nat (m - 1))); [|lia].
    apply Hle. intros x Hx. rewrite Forall_forall in Hrange.
    apply Hrange in Hx. apply elem_of_seqZ. lia.
  - unfold has_all_types.
    pose proof (get_num_unique_upper m (0 :: all_but_zero n m)) as Hup.
    pose proof (get_num_unique_lower (seqZ 0 m) (0 :: all_but_zero n m)
                  (NoDup_seqZ _ _)) as Hlow.
    unfold len in Hlow. rewrite length_seqZ in Hlow.
    assert (Z.of_nat (Z.to_nat m)
            ≤ get_num_unique_gummy_bear_types (0 :: all_but_zero n m)).
    { apply Hlow. intros x Hx. apply elem_of_seqZ in Hx.
      destruct (decide (x = 0)) as [->|Hx0]; [by left|right].
      unfold all_but_zero. apply elem_of_app. left. apply elem_of_seqZ. lia. }
    assert (get_num_unique_gummy_bear_types (0 :: all_but_zero n m) ≤ 0 `max` m).
    { apply Hup. constructor; [lia|done]. }
    lia.
Qed.

Lemma complete_with_first (n : nat) (m x : Z) :
  0 ≤ x ≤ m - 1 →
  num_complete n m
  ≤ len (filter (has_all_types m) ((x ::.) <$> all_packages n m)).
Proof.
  intros Hx. unfold num_complete, len. rewrite filter_cons_fmap.
  apply inj_le, filter_length_mono. intros p Hp.
  apply all_packages_spec in Hp as [_ Hp]. by apply has_all_types_cons.
Qed.

Lemma complete_with_zero_first (n : nat) (m : Z) :
  2 ≤ m → m - 1 ≤ Z.of_nat n →
  num_complete n m + 1
  ≤ len (filter (has_all_types m) ((0 ::.) <$> all_packages n m)).
Proof.
  intros Hm Hn. unfold num_complete, len. rewrite filter_cons_fmap.
  destruct (all_but_zero_spec n m Hm Hn) as (Hin & Hnot & Hall).
  assert ((length (filter (has_all_types m) (all_packages n m))
           < length (filter (λ p, has_all_types m (0%Z :: p))
                            (all_packages n m)))%nat);
    [|lia].
  apply (filter_length_strict _ _ _ (all_but_zero n m)); try done.
  intros p Hp. apply all_packages_spec in Hp as [_ Hp].
  apply has_all_types_cons; [lia|done].
Qed.

Lemma complete_with_each_first (n : nat) (m : Z) (xs : list Z) :
  Forall (λ x, 0 ≤ x ≤ m - 1) xs →
  len xs * num_complete n m
  ≤ len (filter (has_all_types m) (xs ≫= λ x, (x ::.) <$> all_packages n m)).
Proof.
  induction 1 as [|x xs Hx _ IH]; [done|].
  rewrite bind_cons, filter_app. unfold len in *. rewrite length_app.
  pose proof (complete_with_first n m x Hx) as Hfirst. unfold len in Hfirst.
  simpl length. lia.
Qed.

Lemma num_complete_step (n : nat) (m : Z) :
  2 ≤ m → m - 1 ≤ Z.of_nat n →
  m * num_complete n m + 1 ≤ num_complete (S n) m.
Proof.
  intros Hm Hn. unfold num_complete at 2. simpl all_packages.
  rewrite seqZ_cons by lia. rewrite bind_cons, filter_app.
  unfold len. rewrite length_app.
  pose proof (complete_with_zero_first n m Hm Hn) as Hzero.
  pose proof (complete_with_each_first n m (seqZ (Z.succ 0) (Z.pred m))) as Hrest.
  unfold len in Hzero, Hrest. rewrite length_seqZ in Hrest.
  assert (Hin : Forall (λ x, 0 ≤ x ≤ m - 1) (seqZ (Z.succ 0) (Z.pred m))).
  { apply Forall_forall. intros x Hx. apply elem_of_seqZ in Hx. lia. }
  specialize (Hrest Hin).
  assert (0 ≤ num_complete n m) by (unfold num_complete, len; lia).
  nia.
Qed.

Lemma inject_Z_div_lt (a b c d : Z) :
  0 < b → 0 < d → a * d < c * b →
  (inject_Z a / inject_Z b < inject_Z c / inject_Z d)%Q.
Proof.
  intros Hb Hd Hlt. destruct b as [|b|b], d as [|d|d]; try lia.
  unfold Qlt, Qdiv, Qmult, Qinv, inject_Z; simpl. lia.
Qed.

Lemma prob_all_types_succ (n m : Z) :
  2 ≤ m → m - 1 ≤ n →
  (prob_all_types n m < prob_all_types (n + 1) m)%Q.
Proof.
  intros Hm Hn. unfold prob_all_types.
  replace (Z.to_nat (n + 1)) with (S (Z.to_nat n)) by lia.
  pose proof (num_complete_step (Z.to_nat n) m Hm) as Hstep.
  rewrite !length_all_packages by lia.
  assert (Hpow : 0 < m ^ Z.of_nat (Z.to_nat n)) by (apply Z.pow_pos_nonneg; lia).
  apply inject_Z_div_lt; try done.
  - apply Z.pow_pos_nonneg; lia.
  - rewrite Nat2Z.inj_succ, Z.pow_succ_r by lia.
    assert (0 ≤ num_complete (Z.to_nat n) m) by (unfold num_complete, len; lia).
    nia.
Qed.


(** ** The expected estimate of a trial *)

Lemma all_packages_tuples (n : nat) (m : Z) :
  all_packages n m = tuples n (seqZ 0 m).
Proof. induction n as [|n IH]; [done|]. simpl. by rewrite IH. Qed.

Lemma fmap_bind_list {A B C} (g : B → C) (f : A → list B) (l : list A) :
  g <$> (l ≫= f) = l ≫= λ x, g <$> f x.
Proof.
  induction l as [|x l IH]; [done|].
  by rewrite !bind_cons, fmap_app, IH.
Qed.

Lemma cons_bind_app {A} (xs : list A) (T B : list (list A)) :
  (xs ≫= λ x, (x ::.) <$> (T ≫= λ p, (p ++.) <$> B))
  = (xs ≫= λ x, (x ::.) <$> T) ≫= λ p, (p ++.) <$> B.
Proof.
  induction xs as [|x xs IH]; [done|].
  rewrite !bind_cons, bind_app, IH. f_equal.
  rewrite fmap_bind_list, list_fmap_bind. apply list_bind_ext; [|done].
  intros p. simpl. by rewrite <- list_fmap_compose.
Qed.

Lemma tuples_add {A} (a b : nat) (X : list A) :
  tuples (a + b) X = tuples a X ≫= λ p, (p ++.) <$> tuples b X.
Proof.
  induction a as [|a IH].
  - simpl. rewrite app_nil_r. by rewrite list_fmap_id.
  - simpl. rewrite IH. apply cons_bind_app.
Qed.

Lemma tuples_mul {A} (k n : nat) (X : list A) :
  tuples (k * n) X = (mjoin : list (list A) → list A) <$> tuples k (tuples n X).
Proof.
  induction k as [|k IH]; [done|].
  simpl. rewrite tuples_add, IH, fmap_bind_list.
  apply list_bind_ext; [|done]. intros p.
  by rewrite <- !list_fmap_compose.
Qed.

Lemma length_cons_bind {A} (xs : list A) (T : list (list A)) :
  length (xs ≫= λ x, (x ::.) <$> T) = (length xs * length T)%nat.
Proof.
  induction xs as [|x xs IH]; [done|].
  rewrite bind_cons, length_app, length_fmap, IH. simpl. lia.
Qed.

Lemma length_tuples {A} (k : nat) (X : list A) :
  length (tuples k X) = (length X ^ k)%nat.
Proof.
  induction k as [|k IH]; [done|].
  simpl tuples. rewrite length_cons_bind, IH. simpl. lia.
Qed.

Lemma tuples_spec {A} (k : nat) (X : list A) (t : list A) :
  t ∈ tuples k X → length t = k ∧ Forall (λ x, x ∈ X) t.
Proof.
  revert t. induction k as [|k IH]; intros t; simpl.
  - rewrite list_elem_of_singleton. by intros ->.
  - rewrite list_elem_of_bind. intros (x & Ht & Hx).
    apply list_elem_of_fmap in Ht as (q & -> & Hq).
    apply IH in Hq as [Hlen Hall]. split; [simpl; by rewrite Hlen|].
    by constructor.
Qed.

(** The number of packages with all types, summed over all [k]-tuples of
    packages. *)
Lemma sum_complete_cons (m : Z) (p : list Z) (T : list (list (list Z))) :
  sum_list_with (λ t, length (filter (has_all_types m) t)) ((p ::.) <$> T)
  = ((if decide (has_all_types m p) then length T else 0)
     + sum_list_with (λ t, length (filter (has_all_types m) t)) T)%nat.
Proof.
  induction T as [|t T IH]; [by destruct (decide _)|].
  rewrite fmap_cons. simpl sum_list_with. rewrite IH, filter_cons.
  destruct (decide (has_all_types m p)); simpl; lia.
Qed.

Lemma sum_complete_bind (m : Z) (L : list (list Z)) (T : list (list (list Z))) :
  sum_list_with (λ t, length (filter (has_all_types m) t))
    (L ≫= λ p, (p ::.) <$> T)
  = (length (filter (has_all_types m) L) * length T
     + length L
       * sum_list_with (λ t, length (filter (has_all_types m) t)) T)%nat.
Proof.
  induction L as [|p L IH]; [done|].
  rewrite bind_cons, sum_list_with_app, IH, sum_complete_cons, filter_cons.
  destruct (decide (has_all_types m p)); simpl; lia.
Qed.

Lemma sum_complete_tuples (m : Z) (k : nat) (L : list (list Z)) :
  (sum_list_with (λ t, length (filter (has_all_types m) t)) (tuples k L)
   * length L
   = k * length (filter (has_all_types m) L) * length L ^ k)%nat.
Proof.
  induction k as [|k IH]; [simpl; lia|].
  simpl tuples. rewrite sum_complete_bind, length_tuples.
  rewrite Nat.mul_add_distr_r, <- (Nat.mul_assoc (length L)), IH.
  simpl Nat.pow. lia.
Qed.

(** A trial on the scripted source reads its packages off the script. *)
Lemma scripted_draw_each {A} (xs : list A) (p rest : list Z) (m : Z)
    (c : list line) :
  0 < m → length xs = length p → Forall (λ x, 0 ≤ x ≤ m - 1) p →
  comprehension xs (λ _, randrange m) (World (p ++ rest) c)
  = (Ok p, World rest c).
Proof.
  intros Hm. revert p. induction xs as [|x xs IH]; intros [|y p] Hlen Hall;
    try done.
  inversion Hall as [|? ? Hy Hp]; subst.
  simpl. unfold bind at 1. unfold randrange at 1. rewrite decide_True by done.
  simpl. rewrite Z.mod_small by lia.
  unfold bind at 1. rewrite IH; [done| |done]. simpl in Hlen. lia.
Qed.

Lemma scripted_generate (p rest : list Z) (n m : Z) (c : list line) :
  1 ≤ m → p ∈ all_packages (Z.to_nat n) m →
  generate_gummy_bear_package_sample n m (World (p ++ rest) c)
  = (Ok p, World rest c).
Proof.
  intros Hm Hp. apply all_packages_spec in Hp as [Hlen Hall].
  unfold generate_gummy_bear_package_sample, range.
  apply scripted_draw_each; [lia| |done]. by rewrite length_seqZ.
Qed.

Lemma scripted_samples {A} (xs : list A) (t : list (list Z)) (rest : list Z)
    (n m : Z) (c : list line) :
  1 ≤ m → length xs = length t →
  Forall (λ p, p ∈ all_packages (Z.to_nat n) m) t →
  comprehension xs
    (λ _, let* p := generate_gummy_bear_package_sample n m in
          ret (get_num_unique_gummy_bear_types p))
    (World (mjoin t ++ rest) c)
  = (Ok (get_num_unique_gummy_bear_types <$> t), World rest c).
Proof.
  intros Hm. revert t. induction xs as [|x xs IH]; intros [|p t] Hlen Hall;
    try done.
  inversion Hall as [|? ? Hp Ht]; subst.
  simpl. rewrite <- app_assoc. unfold bind at 1. unfold bind at 1.
  rewrite scripted_generate by done. unfold ret at 1.
  unfold bind at 1. rewrite IH; [done| |done]. simpl in Hlen. lia.
Qed.

Lemma scripted_trial {RD : Rounding} (ns n m : Z) (t : list (list Z)) :
  0 < ns → 1 ≤ m → length t = Z.to_nat ns →
  Forall (λ p, p ∈ all_packages (Z.to_nat n) m) t →
  estimate_on_script ns n m (mjoin t)
  = rnd (inject_Z (len (filter (has_all_types m) t)) / inject_Z ns).
Proof.
  intros Hns Hm Hlen Hall. unfold estimate_on_script, run_single_trial.
  unfold bind at 1. unfold generate_samples, range.
  rewrite <- (app_nil_r (mjoin t)).
  rewrite scripted_samples; [|done|by rewrite length_seqZ|done].
  rewrite filter_samples. unfold truediv. rewrite decide_False by lia.
  reflexivity.
Qed.

Lemma sum_exact_estimates (ns n m : Z) (T : list (list (list Z))) :
  0 < ns → 1 ≤ m →
  Forall (λ t, length t = Z.to_nat ns
               ∧ Forall (λ p, p ∈ all_packages (Z.to_nat n) m) t) T →
  (sum_Q ((estimate_on_script (RD:=exact_rounding) ns n m ∘ mjoin) <$> T)
   == inject_Z (Z.of_nat
        (sum_list_with (λ t, length (filter (has_all_types m) t)) T))
      / inject_Z ns)%Q.
Proof.
  intros Hns Hm. induction 1 as [|t T [Hlen Hall] _ IH].
  - simpl. unfold Qdiv. by rewrite Qmult_0_l.
  - rewrite fmap_cons. simpl sum_Q. rewrite IH. simpl sum_list_with.
    rewrite scripted_trial by done.
    simpl rnd. rewrite Qred_correct. unfold len.
    rewrite Nat2Z.inj_add, inject_Z_plus. unfold Qdiv.
    by rewrite Qmult_plus_distr_l.
Qed.

Lemma inject_Z_div_div (a b d c t : Z) :
  0 < b → 0 < d → 0 < t → a * t = c * b * d →
  (inject_Z a / inject_Z b / inject_Z d == inject_Z c / inject_Z t)%Q.
Proof.
  intros Hb Hd Ht Heq. destruct b as [|b|b], d as [|d|d], t as [|t|t]; try lia.
  unfold Qeq, Qdiv, Qmult, Qinv, inject_Z; simpl. lia.
Qed.

(** In exact arithmetic the expected estimate of a trial is the
    probability that a package has all types. *)
Lemma expected_estimate_exact (ns n m : Z) :
  0 < ns → 0 ≤ n → 1 ≤ m →
  (expected_estimate (RD:=exact_rounding) ns n m == prob_all_types n m)%Q.
Proof.
  intros Hns Hn Hm. unfold expected_estimate, prob_all_types.
  set (L := all_packages (Z.to_nat n) m).
  assert (Hscripts : all_packages (Z.to_nat (ns * n)) m
                     = (mjoin : list (list Z) → list Z)
                       <$> tuples (Z.to_nat ns) L).
  { rewrite Z2Nat.inj_mul, all_packages_tuples, tuples_mul by lia.
    unfold L. by rewrite all_packages_tuples. }
  rewrite Hscripts. rewrite <- list_fmap_compose.
  rewrite sum_exact_estimates; [|done|done|].
  2:{ apply Forall_forall. intros t Ht. by apply tuples_spec in Ht. }
  pose proof (sum_complete_tuples m (Z.to_nat ns) L) as Hsum.
  unfold len. rewrite length_fmap, length_tuples.
  pose proof (length_all_packages (Z.to_nat n) m) as HL. fold L in HL.
  unfold len in HL.
  assert (HLpos : 0 < Z.of_nat (length L)).
  { rewrite HL by lia. apply Z.pow_pos_nonneg; lia. }
  unfold num_complete, len. fold L.
  apply inject_Z_div_div; try done.
  - rewrite Nat2Z.inj_pow. apply Z.pow_pos_nonneg; lia.
  - apply (f_equal Z.of_nat) in Hsum.
    rewrite !Nat2Z.inj_mul, Nat2Z.inj_pow, Z2Nat.id in Hsum by lia.
    rewrite Nat2Z.inj_pow, Z2Nat.id by lia. rewrite Hsum. ring.
Qed.

(** Every package the generator returns is one of [all_packages]. *)
Lemma generated_in_all_packages {G} {RS : RandomSource G} (n m : Z)
    (w w' : world G) (p : list Z) :
  1 ≤ m → generate_gummy_bear_package_sample n m w = (Ok p, w') →
  p ∈ all_packages (Z.to_nat n) m.
Proof.
  intros Hm Hgen.
  destruct (generate_package_ok n m w) as (q & g & Hq & Hlen & Hall); [lia|].
  rewrite Hq in Hgen. inversion Hgen; subst.
  apply all_packages_spec. split; [|done]. unfold len in Hlen. lia.
Qed.

Lemma prob_all_types_lt (n n' m : Z) :
  2 ≤ m → m - 1 ≤ n → n < n' →
  (prob_all_types n m < prob_all_types n' m)%Q.
Proof.
  intros Hm Hn Hlt.
  assert (Hgen : ∀ k : nat,
            (prob_all_types n m < prob_all_types (n + 1 + Z.of_nat k) m)%Q).
  { induction k as [|k IH].
    - rewrite Z.add_0_r. apply prob_all_types_succ; lia.
    - eapply Qlt_trans; [exact IH|].
      replace (n + 1 + Z.of_nat (S k)) with (n + 1 + Z.of_nat k + 1) by lia.
      apply prob_all_types_succ; lia. }
  specialize (Hgen (Z.to_nat (n' - n - 1))).
  by replace (n + 1 + Z.of_nat (Z.to_nat (n' - n - 1))) with n' in Hgen by lia.
Qed.

(** ** The expected estimate under any rounding *)

Lemma sum_Q_cons {A} (g : A → Q) (x : A) (l : list A) :
  sum_Q (g <$> x :: l) = (g x + sum_Q (g <$> l))%Q.
Proof. reflexivity. Qed.

Lemma sum_Q_app (l l' : list Q) : (sum_Q (l ++ l') == sum_Q l + sum_Q l')%Q.
Proof.
  induction l as [|x l IH]; simpl.
  - by rewrite Qplus_0_l.
  - rewrite IH. apply Qplus_assoc.
Qed.

Lemma sum_Q_bind {A B} (g : B → Q) (h : A → list B) (l : list A) :
  (sum_Q (g <$> (l ≫= h)) == sum_Q ((λ x, sum_Q (g <$> h x)) <$> l))%Q.
Proof.
  induction l as [|x l IH]; [reflexivity|].
  rewrite bind_cons, fmap_app, sum_Q_app, IH. reflexivity.
Qed.

Lemma sum_Q_pointwise {A} (g h : A → Q) (l : list A) :
  (∀ x, x ∈ l → (g x == h x)%Q) → (sum_Q (g <$> l) == sum_Q (h <$> l))%Q.
Proof.
  induction l as [|x l IH]; intros Hgh; [reflexivity|].
  rewrite !sum_Q_cons. rewrite IH by (intros y Hy; apply Hgh; by right).
  rewrite (Hgh x) by by left. reflexivity.
Qed.

Lemma sum_Q_le {A} (g h : A → Q) (l : list A) :
  (∀ x, x ∈ l → (g x <= h x)%Q) → (sum_Q (g <$> l) <= sum_Q (h <$> l))%Q.
Proof.
  induction l as [|x l IH]; intros Hgh; [apply Qle_refl|].
  rewrite !sum_Q_cons. apply Qplus_le_compat; [apply Hgh; by left|].
  apply IH. intros y Hy. apply Hgh. by right.
Qed.

(** A sum grows by at least what one of its terms grows by, when no term
    shrinks. *)
Lemma sum_Q_le_gap {A} (g h : A → Q) (l : list A) (x0 : A) (d : Q) :
  (∀ x, x ∈ l → (g x <= h x)%Q) → x0 ∈ l → (g x0 + d <= h x0)%Q →
  (sum_Q (g <$> l) + d <= sum_Q (h <$> l))%Q.
Proof.
  induction l as [|x l IH]; intros Hgh Hin Hgap; [by inversion Hin|].
  assert (Htail : (sum_Q (g <$> l) <= sum_Q (h <$> l))%Q).
  { apply sum_Q_le. intros y Hy. apply Hgh. by right. }
  rewrite !sum_Q_cons. apply elem_of_cons in Hin as [<-|Hin].
  - lra.
  - assert (Hx : (g x <= h x)%Q) by (apply Hgh; by left).
    assert (IH' : (sum_Q (g <$> l) + d <= sum_Q (h <$> l))%Q).
    { apply IH; [|done|done]. intros y Hy. apply Hgh. by right. }
    lra.
Qed.

Lemma sum_Q_scale {A} (c : Q) (g : A → Q) (l : list A) :
  (c * sum_Q (g <$> l) == sum_Q ((λ x, c * g x) <$> l))%Q.
Proof.
  induction l as [|x l IH]; [simpl; ring|].
  rewrite !sum_Q_cons, <- IH. ring.
Qed.

Lemma sum_Q_const {A} (c : Q) (l : list A) :
  (sum_Q ((λ _, c) <$> l) == inject_Z (len l) * c)%Q.
Proof.
  unfold len. induction l as [|x l IH].
  - simpl. ring.
  - rewrite sum_Q_cons, IH. simpl length.
    rewrite Nat2Z.inj_succ, <- Z.add_1_l, inject_Z_plus. ring.
Qed.

Section AnyRounding.
Context {RD : Rounding}.

Lemma estimate_of_count_mono (ns a b : Z) :
  0 < ns → a ≤ b → (estimate_of_count ns a <= estimate_of_count ns b)%Q.
Proof.
  intros Hns Hab. apply rnd_mono. destruct ns as [|ns|ns]; try lia.
  unfold Qle, Qdiv, Qmult, Qinv, inject_Z; simpl. nia.
Qed.

Lemma estimate_of_count_zero (ns : Z) : estimate_of_count ns 0 = 0%Q.
Proof.
  unfold estimate_of_count. rewrite <- rnd_0.
  apply rnd_compat, inject_Z_div_zero.
Qed.

Lemma estimate_of_count_all (ns : Z) : ns ≠ 0 → estimate_of_count ns ns = 1%Q.
Proof.
  intros Hns. unfold estimate_of_count. rewrite <- rnd_1.
  by apply rnd_compat, inject_Z_div_same.
Qed.

Lemma sum_estimates_succ (ns m : Z) (L : list (list Z)) (k : nat) (a : Z) :
  (sum_estimates ns m L (S k) a
   == sum_Q ((λ q, sum_estimates ns m L k
                     (a + if decide (has_all_types m q) then 1 else 0))
               <$> L))%Q.
Proof.
  unfold sum_estimates. simpl tuples. rewrite sum_Q_bind.
  apply sum_Q_pointwise. intros q _. rewrite <- list_fmap_compose.
  apply sum_Q_pointwise. intros t _. unfold compose.
  rewrite filter_cons. unfold len.
  destruct (decide (has_all_types m q)); simpl length.
  - replace (a + Z.of_nat (S (length (filter (has_all_types m) t))))
      with (a + 1 + Z.of_nat (length (filter (has_all_types m) t))) by lia.
    reflexivity.
  - replace (a + 0 + Z.of_nat (length (filter (has_all_types m) t)))
      with (a + Z.of_nat (length (filter (has_all_types m) t))) by lia.
    reflexivity.
Qed.

Lemma sum_over_longer_packages (g : list Z → Q) (n : nat) (m : Z) :
  (sum_Q (g <$> all_packages (S n) m)
   == sum_Q ((λ x, sum_Q ((λ p, g (x :: p)) <$> all_packages n m))
               <$> seqZ 0 m))%Q.
Proof.
  simpl all_packages. rewrite sum_Q_bind.
  apply sum_Q_pointwise. intros x _. by rewrite <- list_fmap_compose.
Qed.

(** One more draw in every package: each tuple of packages of [n] draws
    stands for [m ^ k] tuples of packages of [n + 1] draws, none with
    fewer packages with all types, and one with all [k] of them against
    none. *)
Lemma sum_estimates_longer (ns m : Z) (n k : nat) (a a' : Z) :
  0 < ns → 2 ≤ m → m - 1 ≤ Z.of_nat n → a ≤ a' →
  (inject_Z (m ^ Z.of_nat k) * sum_estimates ns m (all_packages n m) k a
   + (estimate_of_count ns (a' + Z.of_nat k) - estimate_of_count ns a)
   <= sum_estimates ns m (all_packages (S n) m) k a')%Q.
Proof.
  intros Hns Hm Hn. revert a a'. induction k as [|k IH]; intros a a' Ha.
  - unfold sum_estimates. simpl. rewrite !Z.add_0_r.
    change (inject_Z (m ^ Z.of_nat 0)) with 1%Q. lra.
  - destruct (all_but_zero_spec n m Hm Hn) as (Hin & Hnot & Hall).
    rewrite !sum_estimates_succ, sum_over_longer_packages.
    rewrite Nat2Z.inj_succ, Z.pow_succ_r, inject_Z_mult by lia.
    set (M := inject_Z (m ^ Z.of_nat k)).
    assert (Hpoint : ∀ x p, x ∈ seqZ 0 m → p ∈ all_packages n m →
              (M * sum_estimates ns m (all_packages n m) k
                     (a + if decide (has_all_types m p) then 1 else 0)%Z
               <= sum_estimates ns m (all_packages (S n) m) k
                    (a' + if decide (has_all_types m (x :: p)) then 1 else 0)%Z)%Q).
    { intros x p Hx Hp. apply elem_of_seqZ in Hx.
      apply all_packages_spec in Hp as [_ Hrange].
      set (c := if decide (has_all_types m p) then 1 else 0).
      set (c' := if decide (has_all_types m (x :: p)) then 1 else 0).
      assert (Hc : c ≤ c').
      { unfold c, c'. destruct (decide (has_all_types m p)) as [Hp|Hp].
        - rewrite decide_True; [lia|]. apply has_all_types_cons; [lia|done|done].
        - destruct (decide _); lia. }
      pose proof (IH (a + c) (a' + c') ltac:(lia)) as IHp.
      pose proof (estimate_of_count_mono ns (a + c) (a' + c' + Z.of_nat k)
                    Hns ltac:(lia)) as Hmono.
      fold M in IHp. lra. }
    assert (Hzero : (M * sum_estimates ns m (all_packages n m) k
                           (a + if decide (has_all_types m (all_but_zero n m))
                                then 1 else 0)%Z
                     + (estimate_of_count ns (a' + Z.succ (Z.of_nat k))
                        - estimate_of_count ns a)
                     <= sum_estimates ns m (all_packages (S n) m) k
                          (a' + if decide (has_all_types m (0 :: all_but_zero n m))
                                then 1 else 0)%Z)%Q).
    { rewrite decide_False, decide_True by done.
      pose proof (IH a (a' + 1) ltac:(lia)) as IH0. fold M in IH0.
      replace (a' + Z.succ (Z.of_nat k)) with (a' + 1 + Z.of_nat k) by lia.
      by rewrite Z.add_0_r. }
    assert (Hlhs : (inject_Z m * M
                    * sum_Q ((λ q, sum_estimates ns m (all_packages n m) k
                                     (a + if decide (has_all_types m q)
                                          then 1 else 0)%Z)
                               <$> all_packages n m)
                    == sum_Q ((λ x : Z,
                                 sum_Q ((λ p, M * sum_estimates ns m
                                                    (all_packages n m) k
                                                    (a + if decide (has_all_types m p)
                                                         then 1 else 0)%Z)
                                          <$> all_packages n m))
                                <$> seqZ 0 m))%Q).
    { rewrite sum_Q_const. unfold len. rewrite length_seqZ, Z2Nat.id by lia.
      rewrite <- sum_Q_scale. ring. }
    rewrite Hlhs.
    apply (sum_Q_le_gap _ _ _ 0).
    + intros x Hx. apply sum_Q_le. intros p Hp. by apply Hpoint.
    + apply elem_of_seqZ. lia.
    + apply (sum_Q_le_gap _ _ _ (all_but_zero n m)); [|done|done].
      intros p Hp. apply Hpoint; [|done]. apply elem_of_seqZ. lia.
Qed.

(** The expected estimate of a trial, written with the packages of the
    trial. *)
Lemma expected_estimate_sum (ns n m : Z) :
  0 < ns → 0 ≤ n → 1 ≤ m →
  (expected_estimate ns n m
   == sum_estimates ns m (all_packages (Z.to_nat n) m) (Z.to_nat ns) 0
      / inject_Z (m ^ (ns * n)))%Q.
Proof.
  intros Hns Hn Hm. unfold expected_estimate.
  rewrite length_all_packages, Z2Nat.id by lia.
  set (L := all_packages (Z.to_nat n) m).
  assert (Hscripts : all_packages (Z.to_nat (ns * n)) m
                     = (mjoin : list (list Z) → list Z)
                       <$> tuples (Z.to_nat ns) L).
  { rewrite Z2Nat.inj_mul, all_packages_tuples, tuples_mul by lia.
    unfold L. by rewrite all_packages_tuples. }
  rewrite Hscripts, <- list_fmap_compose. unfold sum_estimates.
  apply Qmult_comp; [|reflexivity].
  apply sum_Q_pointwise. intros t Ht. apply tuples_spec in Ht as [Hlen Hall].
  unfold compose. rewrite scripted_trial by done. reflexivity.
Qed.

Lemma expected_estimate_succ (ns n m : Z) :
  0 < ns → 2 ≤ m → m - 1 ≤ n →
  (expected_estimate ns n m < expected_estimate ns (n + 1) m)%Q.
Proof.
  intros Hns Hm Hn. rewrite !expected_estimate_sum by lia.
  replace (Z.to_nat (n + 1)) with (S (Z.to_nat n)) by lia.
  pose proof (sum_estimates_longer ns m (Z.to_nat n) (Z.to_nat ns) 0 0 Hns Hm
                ltac:(lia) ltac:(lia)) as Hlonger.
  replace (0 + Z.of_nat (Z.to_nat ns)) with ns in Hlonger by lia.
  rewrite Z2Nat.id in Hlonger by lia.
  rewrite estimate_of_count_zero, estimate_of_count_all in Hlonger by lia.
  set (S0 := sum_estimates ns m (all_packages (Z.to_nat n) m) (Z.to_nat ns) 0)
    in *.
  set (S1 := sum_estimates ns m (all_packages (S (Z.to_nat n)) m)
               (Z.to_nat ns) 0) in *.
  replace (ns * (n + 1)) with (ns + ns * n) by lia.
  rewrite Z.pow_add_r, inject_Z_mult by nia.
  assert (HA : (0 < inject_Z (m ^ ns))%Q).
  { rewrite <- (Zlt_Qlt 0). apply Z.pow_pos_nonneg; lia. }
  assert (HD : (0 < inject_Z (m ^ (ns * n)))%Q).
  { rewrite <- (Zlt_Qlt 0). apply Z.pow_pos_nonneg; nia. }
  set (A := inject_Z (m ^ ns)) in *. set (D := inject_Z (m ^ (ns * n))) in *.
  apply Qlt_shift_div_l; [by apply Qmult_lt_0_compat|].
  assert (Heq : (S0 / D * (A * D) == A * S0)%Q) by (field; lra).
  rewrite Heq. lra.
Qed.

Lemma expected_estimate_lt (ns n n' m : Z) :
  0 < ns → 2 ≤ m → m - 1 ≤ n → n < n' →
  (expected_estimate ns n m < expected_estimate ns n' m)%Q.
Proof.
  intros Hns Hm Hn Hlt.
  assert (Hgen : ∀ k : nat,
            (expected_estimate ns n m
             < expected_estimate ns (n + 1 + Z.of_nat k) m)%Q).
  { induction k as [|k IH].
    - rewrite Z.add_0_r. apply expected_estimate_succ; lia.
    - eapply Qlt_trans; [exact IH|].
      replace (n + 1 + Z.of_nat (S k)) with (n + 1 + Z.of_nat k + 1) by lia.
      apply expected_estimate_succ; lia. }
  specialize (Hgen (Z.to_nat (n' - n - 1))).
  by replace (n + 1 + Z.of_nat (Z.to_nat (n' - n - 1))) with n' in Hgen by lia.
Qed.

End AnyRounding.

(** C8 as the specification words it fails for a single category: every
    package of one category has all (one) categories, so the probability,
    and with it the expected estimate, is 1 for n = 2 and for n = 3 and
    does not increase. *)
Lemma one_category_not_increasing :
  ¬ (prob_all_types 2 1 < prob_all_types 3 1)%Q
  ∧ ¬ (expected_estimate (RD:=exact_rounding) 2 2 1
       < expected_estimate (RD:=exact_rounding) 2 3 1)%Q.
Proof. split; vm_compute; discriminate. Qed.

(** C8, for at least two categories: for n' > n > m >= 2 the expected
    estimate of a trial, of any number of samples and under every rounding
    of the division (so for floats), is strictly larger for packages of n'
    draws than for packages of n draws; so is the probability that a
    package holds all m categories, which in exact arithmetic is that
    expected estimate. *)
Theorem expected_estimate_increasing {RD : Rounding} (ns n n' m : Z) :
  0 < ns → 2 ≤ m → m < n → n < n' →
  (expected_estimate ns n m < expected_estimate ns n' m)%Q
  ∧ (prob_all_types n m < prob_all_types n' m)%Q
  ∧ (expected_estimate (RD:=exact_rounding) ns n m == prob_all_types n m)%Q
  ∧ (expected_estimate (RD:=exact_rounding) ns n' m == prob_all_types n' m)%Q.
Proof.
  intros Hns Hm Hn Hlt. split; [|split; [|split]].
  - apply expected_estimate_lt; lia.
  - apply prob_all_types_lt; lia.
  - apply expected_estimate_exact; lia.
  - apply expected_estimate_exact; lia.
Qed.

Lemma expected_estimate_increasing_witness :
  (expected_estimate (RD:=fixed_rounding 4) 3 3 2
   < expected_estimate (RD:=fixed_rounding 4) 3 4 2)%Q
  ∧ (prob_all_types 3 2 < prob_all_types 4 2)%Q
  ∧ (expected_estimate (RD:=exact_rounding) 3 3 2 == prob_all_types 3 2)%Q
  ∧ (expected_estimate (RD:=exact_rounding) 3 4 2 == prob_all_types 4 2)%Q.
Proof.
  apply (expected_estimate_increasing (RD:=fixed_rounding 4) 3 3 4 2); lia.
Defined.

Example prob_all_types_values :
  (prob_all_types 2 2 == 1 # 2)%Q ∧ (prob_all_types 3 2 == 3 # 4)%Q
  ∧ (prob_all_types 4 2 == 7 # 8)%Q ∧ (prob_all_types 3 3 == 2 # 9)%Q.
Proof. repeat split. Qed.

Example expected_estimate_value :
  (expected_estimate (RD:=exact_rounding) 2 2 2 == 1 # 2)%Q
  ∧ (expected_estimate (RD:=fixed_rounding 4) 3 3 2 == 99 # 128)%Q
  ∧ (prob_all_types 3 2 == 96 # 128)%Q.
Proof. repeat split; vm_compute; reflexivity. Qed.

(** * Further properties of the helper functions *)

(** ** More on the distinct-category counter *)

Lemma get_num_unique_cons_in (x : Z) (p : list Z) :
  x ∈ p →
  get_num_unique_gummy_bear_types (x :: p) = get_num_unique_gummy_bear_types p.
Proof.
  intros Hx. unfold get_num_unique_gummy_bear_types. do 2 f_equal.
  rewrite list_to_set_cons.
  assert (Hin : x ∈ (list_to_set p : gset Z)) by by apply elem_of_list_to_set.
  apply set_eq. intros y. rewrite elem_of_union, elem_of_singleton.
  split; [intros [->|?]; done|by right].
Qed.

Lemma get_num_unique_cons_notin (x : Z) (p : list Z) :
  x ∉ p →
  get_num_unique_gummy_bear_types (x :: p)
  = 1 + get_num_unique_gummy_bear_types p.
Proof.
  intros Hx. unfold get_num_unique_gummy_bear_types.
  rewrite list_to_set_cons, size_union, size_singleton; [lia|].
  apply disjoint_singleton_l. by rewrite elem_of_list_to_set.
Qed.

Lemma get_num_unique_le_len (p : list Z) :
  get_num_unique_gummy_bear_types p ≤ len p.
Proof.
  induction p as [|x p IH]; [by rewrite get_num_unique_nil|].
  unfold len in *. simpl length.
  destruct (decide (x ∈ p)) as [Hx|Hx].
  - rewrite get_num_unique_cons_in by done. lia.
  - rewrite get_num_unique_cons_notin by done. lia.
Qed.

(** The counter sees the set of the values only: two packages with the
    same values, in whatever order and however often repeated, have the
    same count. *)
Theorem get_num_unique_same_values (p q : list Z) :
  (∀ x, x ∈ p ↔ x ∈ q) →
  get_num_unique_gummy_bear_types p = get_num_unique_gummy_bear_types q.
Proof.
  intros Hpq. unfold get_num_unique_gummy_bear_types. do 2 f_equal.
  apply set_eq. intros x. by rewrite !elem_of_list_to_set.
Qed.

Lemma get_num_unique_same_values_witness :
  get_num_unique_gummy_bear_types [3; 1; 3; 2]
  = get_num_unique_gummy_bear_types [2; 2; 1; 3; 1].
Proof.
  apply (get_num_unique_same_values [3; 1; 3; 2] [2; 2; 1; 3; 1]).
  intros x. rewrite !elem_of_cons, !elem_of_nil. intuition lia.
Defined.

(** The count never exceeds the length of the package, and equals it
    exactly when no value is repeated. *)
Theorem get_num_unique_full_iff_NoDup (p : list Z) :
  get_num_unique_gummy_bear_types p ≤ len p
  ∧ (get_num_unique_gummy_bear_types p = len p ↔ NoDup p).
Proof.
  split; [apply get_num_unique_le_len|].
  induction p as [|x p IH].
  - split; [constructor|by rewrite get_num_unique_nil].
  - pose proof (get_num_unique_le_len p) as Hle.
    rewrite NoDup_cons. unfold len in *. simpl length.
    destruct (decide (x ∈ p)) as [Hx|Hx].
    + rewrite get_num_unique_cons_in by done. split; [lia|tauto].
    + rewrite get_num_unique_cons_notin by done. rewrite <- IH.
      split; [intros; split; [done|lia]|intros [_ ?]; lia].
Qed.

(** Putting two packages together: the count of the whole is at least
    the count of each part and at most their sum. *)
Theorem get_num_unique_app (p q : list Z) :
  get_num_unique_gummy_bear_types p ≤ get_num_unique_gummy_bear_types (p ++ q)
  ∧ get_num_unique_gummy_bear_types q ≤ get_num_unique_gummy_bear_types (p ++ q)
  ∧ get_num_unique_gummy_bear_types (p ++ q)
    ≤ get_num_unique_gummy_bear_types p + get_num_unique_gummy_bear_types q.
Proof.
  unfold get_num_unique_gummy_bear_types. rewrite list_to_set_app_L.
  split; [|split].
  - apply inj_le, subseteq_size. set_solver.
  - apply inj_le, subseteq_size. set_solver.
  - rewrite size_union_alt.
    assert (Hle : (size ((list_to_set q : gset Z) ∖ list_to_set p)
                   ≤ size (list_to_set q : gset Z))%nat); [|lia].
    apply subseteq_size. intros y. rewrite elem_of_difference. tauto.
Qed.

(** ** More on the generator and the samples *)

Section GeneratorMore.
Context {G : Type} {RS : RandomSource G}.

(** The generator raises exactly when a draw is asked from an empty range:
    package_size >= 1 and num_types <= 0. It is then the ValueError of the
    first draw, with the random source untouched. With package_size <= 0
    the package is empty whatever num_types is. *)
Theorem generate_package_failure_modes (n m : Z) (w : world G) :
  ((∃ e w', generate_gummy_bear_package_sample n m w = (Raise e, w'))
   ↔ 0 < n ∧ m ≤ 0)
  ∧ (0 < n → m ≤ 0 →
     generate_gummy_bear_package_sample n m w = (Raise ValueError, w))
  ∧ (n ≤ 0 → generate_gummy_bear_package_sample n m w = (Ok [], w)).
Proof.
  split; [|split].
  - split.
    + intros (e & w' & Hraise).
      destruct (decide (0 < n ∧ m ≤ 0)) as [|Hcase]; [done|].
      destruct (generate_package_ok n m w) as (p & g & Hp & _); [lia|].
      congruence.
    + intros [Hn Hm]. eexists _, _. by apply generate_package_raise.
  - apply generate_package_raise.
  - intros Hn. unfold generate_gummy_bear_package_sample, range.
    by rewrite seqZ_nil.
Qed.

(** For package_size >= 1 and num_types >= 1, generate_samples returns
    max(0, num_samples) counts, each between 1 and min(package_size,
    num_types), and prints nothing. *)
Theorem generate_samples_range (ns n m : Z) (w : world G) :
  1 ≤ n → 1 ≤ m →
  ∃ samples w',
    generate_samples ns n m w = (Ok samples, w')
    ∧ len samples = Z.max 0 ns
    ∧ Forall (λ s, 1 ≤ s ≤ Z.min n m) samples
    ∧ console w' = console w.
Proof.
  intros Hn Hm.
  destruct (generate_samples_ok ns n m w)
    as (pkgs & w1 & _ & Hlen & Hcon & Hpk & Hrun); [right; left; lia|].
  eexists _, _. split; [exact Hrun|].
  split; [unfold len in *; by rewrite length_fmap|]. split; [|done].
  apply Forall_fmap. eapply Forall_impl; [exact Hpk|].
  intros p [Hlenp Hrange]. simpl.
  pose proof (get_num_unique_le_len p).
  pose proof (get_num_unique_upper m p Hrange).
  assert (Hne : p ≠ []) by (intros ->; unfold len in Hlenp; simpl in Hlenp; lia).
  pose proof (get_num_unique_pos p Hne). lia.
Qed.

End GeneratorMore.

Lemma generate_package_failure_modes_witness :
  generate_gummy_bear_package_sample 2 0 (World [5; 7] [])
    = (Raise ValueError, World [5; 7] [])
  ∧ generate_gummy_bear_package_sample 0 0 (World [5; 7] [])
    = (Ok [], World [5; 7] []).
Proof.
  split.
  - apply (generate_package_failure_modes 2 0 (World [5; 7] [])); lia.
  - apply (generate_package_failure_modes 0 0 (World [5; 7] [])); lia.
Defined.

Lemma generate_samples_range_witness :
  ∃ samples w',
    generate_samples 3 2 4 (World [5; 7; 1; 0; 3; 2] []) = (Ok samples, w')
    ∧ len samples = Z.max 0 3
    ∧ Forall (λ s, 1 ≤ s ≤ Z.min 2 4) samples
    ∧ console w' = [].
Proof.
  apply (generate_samples_range 3 2 4 (World [5; 7; 1; 0; 3; 2] [])); lia.
Defined.

(** ** More on the trial runner *)

Section TrialRunnerMore.
Context {G : Type} {RS : RandomSource G} {RD : Rounding}.

(** A package smaller than the number of categories cannot hold them all:
    for package_size < num_types every trial of num_samples > 0 samples
    returns the estimate 0 exactly. *)
Theorem run_single_trial_small_package (ns n m : Z) (b : bool) (w : world G) :
  0 < ns → 1 ≤ m → n < m →
  ∃ w', run_single_trial ns n m b w = (Ok 0%Q, w').
Proof.
  intros Hns Hm Hn.
  destruct (run_single_trial_ok ns n m w)
    as (pkgs & w1 & _ & _ & _ & Hpk & Hrun); [lia|right; left; lia|].
  simpl in Hrun. eexists. rewrite Hrun. do 2 f_equal.
  assert (Hnone : filter (has_all_types m) pkgs = []).
  { clear -Hpk Hm Hn. induction Hpk as [|p pkgs [Hlen _] _ IH]; [done|].
    rewrite filter_cons, decide_False; [done|]. unfold has_all_types.
    pose proof (get_num_unique_le_len p). lia. }
  rewrite Hnone. rewrite <- rnd_0. apply rnd_compat, inject_Z_div_zero.
Qed.

(** With a single category every non-empty package holds it: for
    num_types = 1 and package_size >= 1 every trial of num_samples > 0
    samples returns the estimate 1 exactly. *)
Theorem run_single_trial_one_type (ns n : Z) (b : bool) (w : world G) :
  0 < ns → 1 ≤ n →
  ∃ w', run_single_trial ns n 1 b w = (Ok 1%Q, w').
Proof.
  intros Hns Hn.
  destruct (run_single_trial_ok ns n 1 w)
    as (pkgs & w1 & _ & Hlen & _ & Hpk & Hrun); [lia|right; left; lia|].
  simpl in Hrun. eexists. rewrite Hrun. do 2 f_equal.
  assert (Hall : filter (has_all_types 1) pkgs = pkgs).
  { clear -Hpk Hn. induction Hpk as [|p pkgs [Hlen Hrange] _ IH]; [done|].
    rewrite filter_cons, decide_True; [by rewrite IH|].
    unfold has_all_types.
    assert (Hne : p ≠ []) by (intros ->; unfold len in Hlen; simpl in Hlen; lia).
    pose proof (get_num_unique_pos p Hne).
    pose proof (get_num_unique_upper 1 p Hrange). lia. }
  rewrite Hall, Hlen, Z.max_r by lia.
  rewrite <- rnd_1. apply rnd_compat, inject_Z_div_same. lia.
Qed.

(** ** More on the trial aggregator *)

Lemma sum_Q_bounds (es : list Q) :
  Forall (λ e, (0 <= e <= 1)%Q) es →
  (0 <= sum_Q es <= inject_Z (len es))%Q.
Proof.
  induction 1 as [|e es [He0 He1] _ [IH0 IH1]].
  - split; apply Qle_refl.
  - unfold len. simpl length. simpl sum_Q.
    rewrite Nat2Z.inj_succ, <- Z.add_1_l, inject_Z_plus. split.
    + rewrite <- (Qplus_0_l 0). by apply Qplus_le_compat.
    + by apply Qplus_le_compat.
Qed.

Lemma mean_unit_interval (es : list Q) :
  es ≠ [] → Forall (λ e, (0 <= e <= 1)%Q) es →
  (0 <= rnd (sum_Q es / inject_Z (len es)) <= 1)%Q.
Proof.
  intros Hne Hes. destruct (sum_Q_bounds es Hes) as [H0 H1].
  assert (Hlen : (0 < inject_Z (len es))%Q).
  { destruct es; [done|]. unfold len. simpl length.
    unfold Qlt, inject_Z; simpl. lia. }
  apply rnd_unit_interval. split.
  - apply Qle_shift_div_l; [done|]. by rewrite Qmult_0_l.
  - apply Qle_shift_div_r; [done|]. by rewrite Qmult_1_l.
Qed.

(** print_estimates on a non-empty sequence of estimates of [0, 1] prints
    three lines: the header, the estimates and their mean, which lies in
    [0, 1] again; on the empty sequence it prints the two first lines and
    raises StatisticsError. It never touches the random source. *)
Theorem print_estimates_lines (es : list Q) (n m : Z) (w : world G) :
  (es ≠ [] → Forall (λ e, (0 <= e <= 1)%Q) es →
   ∃ mu, print_estimates es n m w
         = (Ok (), World (rng w)
                     (console w ++ [ResultsHeader n m; EstimateList es;
                                    MeanLine mu]))
         ∧ mu = rnd (sum_Q es / inject_Z (len es))
         ∧ (0 <= mu <= 1)%Q)
  ∧ (es = [] →
     print_estimates es n m w
     = (Raise StatisticsError,
        World (rng w) (console w ++ [ResultsHeader n m; EstimateList []]))).
Proof.
  split.
  - intros Hne Hes. eexists. split; [|split; [reflexivity|]].
    + unfold print_estimates, mean. rewrite decide_False.
      * unfold bind, print, ret; simpl. by rewrite <- !app_assoc.
      * destruct es; [done|]. unfold len; simpl length. lia.
    + by apply mean_unit_interval.
  - intros ->. unfold print_estimates, mean, bind, print, raise; simpl.
    by rewrite <- !app_assoc.
Qed.

Lemma runs_trials_unit_interval (ns n m : Z) (w w1 : world G) (es : list Q) :
  0 < ns → 0 < m ∨ n ≤ 0 →
  runs_trials ns n m w es w1 → Forall (λ e, (0 <= e <= 1)%Q) es.
Proof.
  intros Hns Hcase. induction 1 as [|w e w1 es w2 He _ IH]; [constructor|].
  constructor; [|done].
  destruct (run_single_trial_ok ns n m w)
    as (pkgs & w' & _ & Hlen & _ & _ & Hrun); [lia|by right|].
  simpl in Hrun. rewrite Hrun in He. inversion He; subst.
  apply rnd_unit_interval, inject_Z_div_bounds; [|done].
  unfold len in *. pose proof (length_filter (has_all_types m) pkgs). lia.
Qed.

(** For num_trials >= 1, num_samples > 0 and num_types >= 1 (any package
    size) run_trials returns estimates that all lie in [0, 1], and the mean
    it prints lies in [0, 1] too. *)
Theorem run_trials_unit_interval (nt ns n m : Z) (w : world G) :
  1 ≤ nt → 0 < ns → 1 ≤ m →
  ∃ es w' mu,
    run_trials nt ns n m w = (Ok es, w')
    ∧ Forall (λ e, (0 <= e <= 1)%Q) es
    ∧ console w'
      = console w ++ [ResultsHeader n m; EstimateList es; MeanLine mu;
                      TimeTaken]
    ∧ (0 <= mu <= 1)%Q.
Proof.
  intros Hnt Hns Hm.
  destruct (trials_loop (range nt) ns n m [] w)
    as (es & w1 & Hruns & Hlen & Hcon & Hloop); [lia|right; left; lia|].
  assert (Hne : es ≠ []).
  { intros ->. unfold range in Hlen. rewrite length_seqZ in Hlen.
    simpl in Hlen. lia. }
  assert (Hes : Forall (λ e, (0 <= e <= 1)%Q) es).
  { eapply runs_trials_unit_interval; [done| |exact Hruns]. left; lia. }
  simpl in Hloop. destruct w1 as [g1 c1]. simpl in Hcon. subst c1.
  eexists es, _, _. split; [|split; [done|split]].
  - unfold run_trials, bind at 1. rewrite Hloop.
    unfold print_estimates, mean. rewrite decide_False.
    + unfold bind, print, ret; simpl. reflexivity.
    + destruct es; [done|]. unfold len; simpl length. lia.
  - simpl. by rewrite <- !app_assoc.
  - by apply mean_unit_interval.
Qed.

(** A failing first trial ends run_trials before anything is printed and
    before any draw: ZeroDivisionError for num_samples = 0, ValueError for
    num_types <= 0 (with num_samples, package_size >= 1). *)
Theorem run_trials_raises_early (nt ns n m : Z) (w : world G) :
  1 ≤ nt →
  (ns = 0 → run_trials nt ns n m w = (Raise ZeroDivisionError, w))
  ∧ (0 < ns → 0 < n → m ≤ 0 →
     run_trials nt ns n m w = (Raise ValueError, w)).
Proof.
  intros Hnt. unfold run_trials, range. rewrite seqZ_cons by lia.
  simpl for_loop. split.
  - intros ->. unfold bind at 1. unfold bind at 1. unfold bind at 1.
    by rewrite run_single_trial_zero.
  - intros Hns Hn Hm. unfold bind at 1. unfold bind at 1. unfold bind at 1.
    by rewrite run_single_trial_empty_range.
Qed.

(** With num_trials <= 0 no trial is run, whatever the other arguments:
    run_trials prints the header and the empty list of estimates, then
    raises StatisticsError; the random source is untouched. *)
Theorem run_trials_no_trials (nt ns n m : Z) (w : world G) :
  nt ≤ 0 →
  run_trials nt ns n m w
  = (Raise StatisticsError,
     World (rng w) (console w ++ [ResultsHeader n m; EstimateList []])).
Proof.
  intros Hnt. unfold run_trials, range. rewrite seqZ_nil by done.
  unfold print_estimates, mean, bind, print, raise, ret; simpl.
  by rewrite <- !app_assoc.
Qed.

End TrialRunnerMore.

Lemma run_single_trial_small_package_witness :
  ∃ w', run_single_trial (RD:=exact_rounding) 3 2 4 true
          (World [5; 7; 1; 0; 3; 2] []) = (Ok 0%Q, w').
Proof.
  apply (run_single_trial_small_package (RD:=exact_rounding) 3 2 4 true
           (World [5; 7; 1; 0; 3; 2] [])); lia.
Defined.

Lemma run_single_trial_one_type_witness :
  ∃ w', run_single_trial (RD:=exact_rounding) 2 3 1 false
          (World [5; 7; 1; 0; 3; 2] []) = (Ok 1%Q, w').
Proof.
  apply (run_single_trial_one_type (RD:=exact_rounding) 2 3 false
           (World [5; 7; 1; 0; 3; 2] [])); lia.
Defined.

Lemma print_estimates_lines_witness :
  (∃ mu, print_estimates (RD:=exact_rounding) [(1 # 2)%Q; 1%Q] 2 2
           (World [5; 7] [])
         = (Ok (), World [5; 7]
                     ([] ++ [ResultsHeader 2 2; EstimateList [(1 # 2)%Q; 1%Q];
                             MeanLine mu]))
         ∧ mu = rnd (Rounding:=exact_rounding)
                  (sum_Q [(1 # 2)%Q; 1%Q] / inject_Z (len [(1 # 2)%Q; 1%Q]))
         ∧ (0 <= mu <= 1)%Q)
  ∧ print_estimates (RD:=exact_rounding) [] 2 2 (World [5; 7] [])
    = (Raise StatisticsError,
       World [5; 7] ([] ++ [ResultsHeader 2 2; EstimateList []])).
Proof.
  split.
  - apply (print_estimates_lines (RD:=exact_rounding) [(1 # 2)%Q; 1%Q] 2 2
             (World [5; 7] [])); [discriminate|].
    repeat constructor; unfold Qle; simpl; lia.
  - by apply (print_estimates_lines (RD:=exact_rounding) [] 2 2
                (World [5; 7] [])).
Defined.

Lemma run_trials_unit_interval_witness :
  ∃ es w' mu,
    run_trials (RD:=exact_rounding) 2 2 0 2 (World [5; 7] []) = (Ok es, w')
    ∧ Forall (λ e, (0 <= e <= 1)%Q) es
    ∧ console w'
      = [] ++ [ResultsHeader 0 2; EstimateList es; MeanLine mu; TimeTaken]
    ∧ (0 <= mu <= 1)%Q.
Proof.
  apply (run_trials_unit_interval (RD:=exact_rounding) 2 2 0 2
           (World [5; 7] [])); lia.
Defined.

Lemma run_trials_raises_early_witness :
  run_trials (RD:=exact_rounding) 3 0 2 2 (World [5; 7] [TimeTaken])
    = (Raise ZeroDivisionError, World [5; 7] [TimeTaken])
  ∧ run_trials (RD:=exact_rounding) 3 2 2 0 (World [5; 7] [TimeTaken])
    = (Raise ValueError, World [5; 7] [TimeTaken]).
Proof.
  split.
  - apply (run_trials_raises_early (RD:=exact_rounding) 3 0 2 2
             (World [5; 7] [TimeTaken])); lia.
  - apply (run_trials_raises_early (RD:=exact_rounding) 3 2 2 0
             (World [5; 7] [TimeTaken])); lia.
Defined.

Lemma run_trials_no_trials_witness :
  run_trials (RD:=exact_rounding) (-2) 0 3 0 (World [5; 7] [])
  = (Raise StatisticsError,
     World [5; 7] ([] ++ [ResultsHeader 3 0; EstimateList []])).
Proof.
  apply (run_trials_no_trials (RD:=exact_rounding) (-2) 0 3 0
           (World [5; 7] [])). lia.
Defined.

(** The verbose flag changes nothing but the console, on every input: the
    result (value or exception) and the random source are the same with
    and without it; and a call that raises, verbose or not, leaves the
    world as it found it: nothing is printed and nothing drawn. *)
Theorem run_single_trial_verbose_any {G} {RS : RandomSource G} {RD : Rounding}
    (ns n m : Z) (w : world G) :
  (run_single_trial ns n m true w).1 = (run_single_trial ns n m false w).1
  ∧ rng (run_single_trial ns n m true w).2
    = rng (run_single_trial ns n m false w).2
  ∧ (∀ b e, (run_single_trial ns n m b w).1 = Raise e →
            (run_single_trial ns n m b w).2 = w).
Proof.
  split; [|split].
  - unfold run_single_trial, bind.
    destruct (generate_samples ns n m w) as [[samples|e] w1]; [|done].
    unfold truediv. by destruct (decide (ns = 0)).
  - unfold run_single_trial, bind.
    destruct (generate_samples ns n m w) as [[samples|e] w1]; [|done].
    unfold truediv. by destruct (decide (ns = 0)).
  - intros b e Hraise.
    destruct (decide (ns = 0)) as [->|Hns];
      [by rewrite run_single_trial_zero|].
    destruct (decide (0 < ns ∧ 0 < n ∧ m ≤ 0)) as [(? & ? & ?)|Hcase];
      [by rewrite run_single_trial_empty_range|].
    destruct (run_single_trial_ok ns n m w Hns) as (? & ? & _ & _ & _ & _ & Hrun);
      [lia|].
    simpl in Hrun. rewrite Hrun in Hraise. discriminate.
Qed.

(** ** The draws a trial makes *)

Section DrawCount.
Context {G : Type} {RS : RandomSource G} {RD : Rounding}.

Lemma counted_draw_each {A} (xs : list A) (m : Z) (g : G) (k : nat)
    (con : list line) :
  0 < m →
  ∃ p g', comprehension xs (λ _, randrange m) (World (g, k) con)
          = (Ok p, World (g', (k + length xs)%nat) con).
Proof.
  intros Hm. revert g k. induction xs as [|x xs IH]; intros g k.
  - exists [], g. simpl. unfold ret. by rewrite Nat.add_0_r.
  - destruct (IH (randbelow m g).2 (S k)) as (p & g' & Hp).
    eexists (_ :: p), g'. simpl. unfold bind at 1. unfold randrange at 1.
    rewrite decide_True by done. simpl. unfold bind at 1. rewrite Hp.
    unfold ret. do 3 f_equal. lia.
Qed.

Lemma counted_generate (n m : Z) (g : G) (k : nat) (con : list line) :
  0 < m →
  ∃ p g', generate_gummy_bear_package_sample n m (World (g, k) con)
          = (Ok p, World (g', (k + Z.to_nat n)%nat) con).
Proof.
  intros Hm. unfold generate_gummy_bear_package_sample, range.
  destruct (counted_draw_each (seqZ 0 n) m g k con Hm) as (p & g1 & Hp).
  rewrite length_seqZ in Hp. by exists p, g1.
Qed.

Lemma counted_samples {A} (xs : list A) (n m : Z) (g : G) (k : nat)
    (con : list line) :
  0 < m →
  ∃ samples g',
    comprehension xs
      (λ _, let* p := generate_gummy_bear_package_sample n m in
            ret (get_num_unique_gummy_bear_types p)) (World (g, k) con)
    = (Ok samples, World (g', (k + length xs * Z.to_nat n)%nat) con).
Proof.
  intros Hm. revert g k. induction xs as [|x xs IH]; intros g k.
  - exists [], g. simpl. unfold ret. by rewrite Nat.add_0_r.
  - destruct (counted_generate n m g k con Hm) as (p & g1 & Hp).
    destruct (IH g1 (k + Z.to_nat n)%nat) as (samples & g' & Hs).
    eexists (_ :: samples), g'. simpl. unfold bind at 1. unfold bind at 1.
    rewrite Hp.
    unfold ret at 1. unfold bind at 1. rewrite Hs. unfold ret.
    do 3 f_equal. lia.
Qed.

Lemma counted_trial (ns n m : Z) (b : bool) (g : G) (k : nat)
    (con : list line) :
  0 < ns → 1 ≤ m →
  ∃ v g' out,
    run_single_trial ns n m b (World (g, k) con)
    = (Ok v, World (g', (k + Z.to_nat ns * Z.to_nat n)%nat) out)
    ∧ (b = false → out = con).
Proof.
  intros Hns Hm.
  destruct (counted_samples (range ns) n m g k con) as (samples & g' & Hs);
    [lia|].
  unfold range in Hs. rewrite length_seqZ in Hs.
  unfold run_single_trial, generate_samples, range, bind at 1. rewrite Hs.
  unfold truediv. rewrite decide_False by lia.
  destruct b; unfold bind, print, ret; simpl; by eexists _, _, _.
Qed.

(** A trial of num_samples > 0 samples over num_types >= 1 categories
    makes exactly num_samples * package_size draws from the random source
    (none for a package size <= 0). *)
Theorem run_single_trial_draw_count (ns n m : Z) (b : bool) (g : G) (k : nat)
    (con : list line) :
  0 < ns → 1 ≤ m →
  ∃ v g' out,
    run_single_trial ns n m b (World (g, k) con)
    = (Ok v, World (g', (k + Z.to_nat ns * Z.to_nat n)%nat) out).
Proof.
  intros Hns Hm.
  destruct (counted_trial ns n m b g k con Hns Hm) as (v & g' & out & Hrun & _).
  by exists v, g', out.
Qed.

Lemma counted_trials {A} (xs : list A) (ns n m : Z) (acc : list Q) (g : G)
    (k : nat) (con : list line) :
  0 < ns → 1 ≤ m →
  ∃ es g',
    for_loop xs
      (λ _ estimates,
         let* e := run_single_trial ns n m false in
         ret (estimates ++ [e])) acc (World (g, k) con)
    = (Ok es,
       World (g', (k + length xs * (Z.to_nat ns * Z.to_nat n))%nat) con)
    ∧ length es = (length acc + length xs)%nat.
Proof.
  intros Hns Hm. revert acc g k. induction xs as [|x xs IH]; intros acc g k.
  - exists acc, g. simpl. unfold ret. rewrite !Nat.add_0_r. done.
  - destruct (counted_trial ns n m false g k con Hns Hm)
      as (v & g1 & out & Hrun & Hout).
    rewrite Hout in Hrun by done.
    destruct (IH (acc ++ [v]) g1 (k + Z.to_nat ns * Z.to_nat n)%nat)
      as (es & g' & Hes & Hlen).
    exists es, g'. split.
    + simpl. unfold bind at 1. unfold bind at 1. rewrite Hrun.
      unfold ret at 1. rewrite Hes. do 3 f_equal. lia.
    + rewrite Hlen, length_app. simpl. lia.
Qed.

(** A batch of num_trials >= 1 trials makes exactly
    num_trials * num_samples * package_size draws: printing the estimates
    makes none. *)
Theorem run_trials_draw_count (nt ns n m : Z) (g : G) (k : nat)
    (con : list line) :
  1 ≤ nt → 0 < ns → 1 ≤ m →
  ∃ es g' out,
    run_trials nt ns n m (World (g, k) con)
    = (Ok es,
       World (g', (k + Z.to_nat nt * (Z.to_nat ns * Z.to_nat n))%nat) out).
Proof.
  intros Hnt Hns Hm.
  destruct (counted_trials (range nt) ns n m [] g k con Hns Hm)
    as (es & g' & Hes & Hlen).
  unfold range in Hes, Hlen. rewrite length_seqZ in Hes, Hlen.
  unfold run_trials, range, bind at 1. rewrite Hes.
  unfold print_estimates, mean. rewrite decide_False.
  - unfold bind, print, ret; simpl. by eexists _, _, _.
  - unfold len. rewrite Hlen. simpl. lia.
Qed.

End DrawCount.

Lemma run_single_trial_draw_count_witness :
  ∃ v g' out,
    run_single_trial (RD:=exact_rounding) 3 2 2 true
      (World ([5; 7; 1; 0; 3; 2; 9; 4], 0%nat) [])
    = (Ok v, World (g', (0 + Z.to_nat 3 * Z.to_nat 2)%nat) out).
Proof.
  apply (run_single_trial_draw_count (RD:=exact_rounding) 3 2 2 true
           [5; 7; 1; 0; 3; 2; 9; 4] 0 []); lia.
Defined.

Lemma run_trials_draw_count_witness :
  ∃ es g' out,
    run_trials (RD:=exact_rounding) 2 3 2 2 (World (42, 0%nat) [])
    = (Ok es,
       World (g', (0 + Z.to_nat 2 * (Z.to_nat 3 * Z.to_nat 2))%nat) out).
Proof.
  apply (run_trials_draw_count (RD:=exact_rounding) 2 3 2 2 42 0 []); lia.
Defined.

Example run_single_trial_counted :
  run_single_trial (RD:=exact_rounding) 3 2 2 false
    (World ([5; 7; 1; 0; 3; 2; 9; 4], 0%nat) [])
  = (Ok (2 # 3)%Q, World ([9; 4], 6%nat) []).
Proof. vm_compute. reflexivity. Qed.

(** ** Splitting a batch of trials *)

Section ConsoleBlind.
Context {G : Type} {RS : RandomSource G} {RD : Rounding}.

Lemma blind_ret {A} (a : A) : console_blind (G:=G) (ret a).
Proof. intros g. exists (Ok a), g, []. intros con. by rewrite app_nil_r. Qed.

Lemma blind_raise {A} (e : exn) : console_blind (G:=G) (A:=A) (raise e).
Proof. intros g. exists (Raise e), g, []. intros con. by rewrite app_nil_r. Qed.

Lemma blind_print (l : line) : console_blind (G:=G) (print l).
Proof. intros g. by exists (Ok ()), g, [l]. Qed.

Lemma blind_bind {A B} (c : prog G A) (k : A → prog G B) :
  console_blind c → (∀ a, console_blind (k a)) → console_blind (bind c k).
Proof.
  intros Hc Hk g. destruct (Hc g) as ([a|e] & g1 & out1 & H1).
  - destruct (Hk a g1) as (r2 & g2 & out2 & H2).
    exists r2, g2, (out1 ++ out2). intros con.
    unfold bind. by rewrite H1, H2, app_assoc.
  - exists (Raise e), g1, out1. intros con. unfold bind. by rewrite H1.
Qed.

Lemma blind_randrange (m : Z) : console_blind (G:=G) (randrange m).
Proof.
  intros g. unfold randrange. destruct (decide (0 < m)).
  - eexists _, _, []. intros con. simpl. by rewrite app_nil_r.
  - eexists _, _, []. intros con. simpl. by rewrite app_nil_r.
Qed.

Lemma blind_comprehension {A B} (xs : list A) (body : A → prog G B) :
  (∀ x, console_blind (body x)) → console_blind (comprehension xs body).
Proof.
  intros Hbody. induction xs as [|x xs IH]; simpl; [apply blind_ret|].
  apply blind_bind; [done|]. intros y.
  apply blind_bind; [done|]. intros ys. apply blind_ret.
Qed.

Lemma blind_for_loop {A S} (xs : list A) (step : A → S → prog G S) (acc : S) :
  (∀ x a, console_blind (step x a)) → console_blind (for_loop xs step acc).
Proof.
  intros Hstep. revert acc. induction xs as [|x xs IH]; intros acc; simpl;
    [apply blind_ret|].
  by apply blind_bind.
Qed.

Lemma blind_run_single_trial (ns n m : Z) (b : bool) :
  console_blind (G:=G) (run_single_trial ns n m b).
Proof.
  unfold run_single_trial. apply blind_bind.
  - apply blind_comprehension. intros _. apply blind_bind.
    + apply blind_comprehension. intros _. apply blind_randrange.
    + intros p. apply blind_ret.
  - intros samples. apply blind_bind.
    + unfold truediv. destruct (decide _); [apply blind_raise|apply blind_ret].
    + intros v. apply blind_bind; [|intros _; apply blind_ret].
      destruct b; [apply blind_print|apply blind_ret].
Qed.

Lemma for_loop_app {A S} (xs ys : list A) (step : A → S → prog G S) (acc : S)
    (w : world G) :
  for_loop (xs ++ ys) step acc w
  = bind (for_loop xs step acc) (for_loop ys step) w.
Proof.
  revert acc w. induction xs as [|x xs IH]; intros acc w; [done|].
  simpl. unfold bind. destruct (step x acc w) as [[a|e] w']; [|done].
  rewrite IH. reflexivity.
Qed.

Lemma for_loop_length {A B S} (xs : list A) (ys : list B) (f : S → prog G S)
    (acc : S) (w : world G) :
  length xs = length ys →
  for_loop xs (λ _, f) acc w = for_loop ys (λ _, f) acc w.
Proof.
  revert ys acc w. induction xs as [|x xs IH]; intros [|y ys] acc w Hlen;
    try done.
  simpl. unfold bind. destruct (f acc w) as [[a|e] w']; [|done].
  apply IH. simpl in Hlen. lia.
Qed.

Lemma trials_loop_prefix {A} (xs : list A) (ns n m : Z) (acc0 acc : list Q)
    (w : world G) :
  for_loop xs
    (λ _ estimates,
       let* e := run_single_trial ns n m false in
       ret (estimates ++ [e])) (acc0 ++ acc) w
  = match for_loop xs
            (λ _ estimates,
               let* e := run_single_trial ns n m false in
               ret (estimates ++ [e])) acc w with
    | (Ok es, w') => (Ok (acc0 ++ es), w')
    | (Raise e, w') => (Raise e, w')
    end.
Proof.
  revert acc w. induction xs as [|x xs IH]; intros acc w; [reflexivity|].
  simpl. unfold bind.
  destruct (run_single_trial ns n m false w) as [[v|e] w']; [|done].
  unfold ret. rewrite <- app_assoc. apply IH.
Qed.

Lemma run_trials_inv (nt ns n m : Z) (w w1 : world G) (es : list Q) :
  run_trials nt ns n m w = (Ok es, w1) →
  ∃ wa,
    for_loop (range nt)
      (λ _ estimates,
         let* e := run_single_trial ns n m false in
         ret (estimates ++ [e])) [] w = (Ok es, wa)
    ∧ es ≠ [] ∧ rng w1 = rng wa.
Proof.
  unfold run_trials, bind at 1.
  destruct (for_loop _ _ _ w) as [[es'|e] wa]; [|discriminate].
  unfold print_estimates, mean. destruct (decide (len es' < 1)) as [Hlt|Hge].
  - unfold bind, print, raise; simpl. discriminate.
  - unfold bind, print, ret; simpl. intros Heq. inversion Heq; subst.
    exists wa. repeat split. intros ->. unfold len in Hge. simpl in Hge. lia.
Qed.

Lemma run_trials_intro (nt ns n m : Z) (w wa : world G) (es : list Q) :
  for_loop (range nt)
    (λ _ estimates,
       let* e := run_single_trial ns n m false in
       ret (estimates ++ [e])) [] w = (Ok es, wa) →
  es ≠ [] →
  ∃ w', run_trials nt ns n m w = (Ok es, w') ∧ rng w' = rng wa.
Proof.
  intros Hloop Hne. unfold run_trials, bind at 1. rewrite Hloop.
  unfold print_estimates, mean. rewrite decide_False.
  - unfold bind, print, ret; simpl. by eexists.
  - destruct es; [done|]. unfold len. simpl length. lia.
Qed.

(** A batch of a + b trials returns the estimates of a batch of a trials
    followed by those of a batch of b trials started where the first left
    the random source. *)
Theorem run_trials_split (nt1 nt2 ns n m : Z) (w w1 w2 : world G)
    (es1 es2 : list Q) :
  run_trials nt1 ns n m w = (Ok es1, w1) →
  run_trials nt2 ns n m w1 = (Ok es2, w2) →
  ∃ w', run_trials (nt1 + nt2) ns n m w = (Ok (es1 ++ es2), w')
        ∧ rng w' = rng w2.
Proof.
  intros H1 H2.
  apply run_trials_inv in H1 as (wa & Hl1 & Hne1 & Hrng1).
  apply run_trials_inv in H2 as (wb & Hl2 & Hne2 & Hrng2).
  assert (Hnt1 : 0 < nt1).
  { destruct (decide (0 < nt1)); [done|]. unfold range in Hl1.
    rewrite seqZ_nil in Hl1 by lia. simpl in Hl1. inversion Hl1. by subst. }
  assert (Hnt2 : 0 < nt2).
  { destruct (decide (0 < nt2)); [done|]. unfold range in Hl2.
    rewrite seqZ_nil in Hl2 by lia. simpl in Hl2. inversion Hl2. by subst. }
  destruct (blind_for_loop (range nt2)
              (λ _ estimates,
                 let* e := run_single_trial ns n m false in
                 ret (estimates ++ [e])) [] ) with (g := rng wa)
    as (r & g' & out & Hblind).
  { intros _ a. apply blind_bind; [apply blind_run_single_trial|].
    intros e. apply blind_ret. }
  pose proof (Hblind (console w1)) as Hb1.
  rewrite <- Hrng1 in Hb1. destruct w1 as [g1 c1]. simpl in Hb1.
  rewrite Hl2 in Hb1. inversion Hb1; subst r.
  specialize (Hblind (console wa)). destruct wa as [ga ca]. simpl in *.
  destruct (run_trials_intro (nt1 + nt2) ns n m w
              (World g' (ca ++ out)) (es1 ++ es2)) as (w' & Hrun & Hrng).
  - unfold range in *. rewrite seqZ_app by lia. rewrite for_loop_app.
    unfold bind at 1. rewrite Hl1.
    rewrite (for_loop_length (seqZ (0 + nt1) nt2) (seqZ 0 nt2)).
    + rewrite <- (app_nil_r es1) at 1. rewrite trials_loop_prefix.
      by rewrite Hblind.
    + by rewrite !length_seqZ.
  - by destruct es1.
  - exists w'. split; [done|]. rewrite Hrng, Hrng2. by subst wb.
Qed.

End ConsoleBlind.

Lemma run_trials_split_witness :
  ∃ w', run_trials (RD:=exact_rounding) (1 + 1) 2 2 2
          (World [5; 7; 1; 0; 3; 2; 9; 4] [])
        = (Ok ([(1 # 2)%Q] ++ [1%Q]), w')
        ∧ rng w' = [].
Proof.
  apply (run_trials_split (RD:=exact_rounding) 1 1 2 2 2
           (World [5; 7; 1; 0; 3; 2; 9; 4] [])
           (World [3; 2; 9; 4]
              [ResultsHeader 2 2; EstimateList [(1 # 2)%Q];
               MeanLine (1 # 2)%Q; TimeTaken])
           (World []
              [ResultsHeader 2 2; EstimateList [(1 # 2)%Q];
               MeanLine (1 # 2)%Q; TimeTaken;
               ResultsHeader 2 2; EstimateList [1%Q];
               MeanLine 1%Q; TimeTaken])
           [(1 # 2)%Q] [1%Q]).
  - vm_compute. reflexivity.
  - vm_compute. reflexivity.
Defined.

(** ** The estimator is unbiased *)

Lemma sum_grid_estimates {RD : Rounding} (ns n m : Z)
    (T : list (list (list Z))) :
  0 < ns → 1 ≤ m →
  (∀ k, 0 ≤ k ≤ ns →
     (rnd (inject_Z k / inject_Z ns) == inject_Z k / inject_Z ns)%Q) →
  Forall (λ t, length t = Z.to_nat ns
               ∧ Forall (λ p, p ∈ all_packages (Z.to_nat n) m) t) T →
  (sum_Q ((estimate_on_script ns n m ∘ mjoin) <$> T)
   == inject_Z (Z.of_nat
        (sum_list_with (λ t, length (filter (has_all_types m) t)) T))
      / inject_Z ns)%Q.
Proof.
  intros Hns Hm Hgrid. induction 1 as [|t T [Hlen Hall] _ IH].
  - simpl. unfold Qdiv. by rewrite Qmult_0_l.
  - rewrite fmap_cons. simpl sum_Q. rewrite IH. simpl sum_list_with.
    rewrite scripted_trial by done.
    rewrite Hgrid.
    + unfold len. rewrite Nat2Z.inj_add, inject_Z_plus. unfold Qdiv.
      by rewrite Qmult_plus_distr_l.
    + unfold len. pose proof (length_filter (has_all_types m) t). lia.
Qed.

(** Whenever the float division is exact on the multiples k / num_samples
    (it always is in exact arithmetic, and for one sample under every
    rounding), the expected estimate of a trial, over all equally likely
    sequences of draws, is the probability that a package holds all
    categories: the estimator is unbiased. *)
Theorem trial_estimate_unbiased {RD : Rounding} (ns n m : Z) :
  0 < ns → 0 ≤ n → 1 ≤ m →
  (∀ k, 0 ≤ k ≤ ns →
     (rnd (inject_Z k / inject_Z ns) == inject_Z k / inject_Z ns)%Q) →
  (expected_estimate ns n m == prob_all_types n m)%Q.
Proof.
  intros Hns Hn Hm Hgrid. unfold expected_estimate, prob_all_types.
  set (L := all_packages (Z.to_nat n) m).
  assert (Hscripts : all_packages (Z.to_nat (ns * n)) m
                     = (mjoin : list (list Z) → list Z)
                       <$> tuples (Z.to_nat ns) L).
  { rewrite Z2Nat.inj_mul, all_packages_tuples, tuples_mul by lia.
    unfold L. by rewrite all_packages_tuples. }
  rewrite Hscripts. rewrite <- list_fmap_compose.
  rewrite sum_grid_estimates; [|done|done|done|].
  2:{ apply Forall_forall. intros t Ht. by apply tuples_spec in Ht. }
  pose proof (sum_complete_tuples m (Z.to_nat ns) L) as Hsum.
  unfold len. rewrite length_fmap, length_tuples.
  pose proof (length_all_packages (Z.to_nat n) m) as HL. fold L in HL.
  unfold len in HL.
  assert (HLpos : 0 < Z.of_nat (length L)).
  { rewrite HL by lia. apply Z.pow_pos_nonneg; lia. }
  unfold num_complete, len. fold L.
  apply inject_Z_div_div; try done.
  - rewrite Nat2Z.inj_pow. apply Z.pow_pos_nonneg; lia.
  - apply (f_equal Z.of_nat) in Hsum.
    rewrite !Nat2Z.inj_mul, Nat2Z.inj_pow, Z2Nat.id in Hsum by lia.
    rewrite Nat2Z.inj_pow, Z2Nat.id by lia. rewrite Hsum. ring.
Qed.

Lemma trial_estimate_unbiased_witness :
  (expected_estimate (RD:=fixed_rounding 4) 2 3 2 == prob_all_types 3 2)%Q.
Proof.
  apply (trial_estimate_unbiased (RD:=fixed_rounding 4) 2 3 2); try lia.
  intros k Hk.
  assert (Hcases : k = 0 ∨ k = 1 ∨ k = 2) by lia.
  destruct Hcases as [->|[->| ->]]; reflexivity.
Defined.

(** ** As many draws as categories *)

Lemma length_filter_sum {A} (P : A → Prop) `{!∀ a, Decision (P a)}
    (L : list A) :
  length (filter P L) = sum_list_with (λ a, if decide (P a) then 1 else 0)%nat L.
Proof.
  induction L as [|a L IH]; [done|].
  rewrite filter_cons. simpl sum_list_with.
  destruct (decide (P a)); simpl; by rewrite IH.
Qed.

Lemma sum_list_with_add {A} (f g : A → nat) (L : list A) :
  sum_list_with (λ a, f a + g a)%nat L
  = (sum_list_with f L + sum_list_with g L)%nat.
Proof. induction L as [|a L IH]; [done|]. simpl. rewrite IH. lia. Qed.

Lemma sum_list_with_pointwise {A} (f g : A → nat) (L : list A) :
  (∀ a, f a = g a) → sum_list_with f L = sum_list_with g L.
Proof. intros Hfg. induction L as [|a L IH]; [done|]. simpl. by rewrite Hfg, IH. Qed.

Lemma filter_iff_in {A} (P Q : A → Prop)
    `{!∀ a, Decision (P a)} `{!∀ a, Decision (Q a)} (L : list A) :
  (∀ a, a ∈ L → (P a ↔ Q a)) → filter P L = filter Q L.
Proof.
  induction L as [|a L IH]; intros HPQ; [done|].
  rewrite !filter_cons.
  assert (Ha : P a ↔ Q a) by (apply HPQ; by left).
  rewrite IH by (intros b Hb; apply HPQ; by right).
  destruct (decide (P a)), (decide (Q a)); tauto.
Qed.

Lemma sum_list_with_zero {A} (L : list A) :
  sum_list_with (λ _, 0%nat) L = 0%nat.
Proof. induction L as [|a L IH]; [done|]. simpl. by rewrite IH. Qed.

(** Counting the lists [x :: p] of a product by their tail. *)
Lemma filter_cons_bind_sum (P : list Z → Prop) `{!∀ p, Decision (P p)}
    (xs : list Z) (L : list (list Z)) :
  length (filter P (xs ≫= λ x, (x ::.) <$> L))
  = sum_list_with (λ p, length (filter (λ x, P (x :: p)) xs)) L.
Proof.
  induction xs as [|x xs IH].
  - simpl. by rewrite sum_list_with_zero.
  - rewrite bind_cons, filter_app, length_app, IH, filter_cons_fmap.
    rewrite length_filter_sum, <- sum_list_with_add.
    apply sum_list_with_pointwise. intros p.
    rewrite filter_cons. by destruct (decide (P (x :: p))).
Qed.

Lemma length_filter_notin (X p : list Z) :
  NoDup X → NoDup p → (∀ x, x ∈ p → x ∈ X) →
  length (filter (λ x, x ∉ p) X) = (length X - length p)%nat.
Proof.
  intros HX Hp Hsub.
  pose proof (filter_app_complement (λ x, x ∈ p) X) as Hperm.
  apply Permutation_length in Hperm. rewrite length_app in Hperm.
  assert (Hin : filter (λ x, x ∈ p) X ≡ₚ p).
  { apply NoDup_Permutation; [by apply NoDup_filter|done|].
    intros x. rewrite list_elem_of_filter. split; [tauto|]. intros Hx.
    split; [done|by apply Hsub]. }
  apply Permutation_length in Hin. lia.
Qed.

Lemma sum_list_with_filter {A} (P : A → Prop) `{!∀ a, Decision (P a)}
    (F : A → nat) (c : nat) (L : list A) :
  (∀ a, a ∈ L → F a = if decide (P a) then c else 0%nat) →
  sum_list_with F L = (length (filter P L) * c)%nat.
Proof.
  induction L as [|a L IH]; intros HF; [done|].
  simpl sum_list_with. rewrite filter_cons.
  rewrite IH by (intros b Hb; apply HF; by right).
  rewrite (HF a) by by left. destruct (decide (P a)); simpl; lia.
Qed.

(** A draw can be put before a duplicate-free package of [n] draws in
    [m - n] ways without repeating a category. *)
Lemma num_injective_succ (n : nat) (m : Z) :
  num_injective (S n) m = (num_injective n m * (Z.to_nat m - n))%nat.
Proof.
  unfold num_injective. simpl all_packages. rewrite filter_cons_bind_sum.
  apply sum_list_with_filter. intros p Hp.
  apply all_packages_spec in Hp as [Hlen Hrange].
  destruct (decide (NoDup p)) as [Hnd|Hnd].
  - rewrite <- Hlen, <- (length_seqZ 0 m).
    rewrite <- (length_filter_notin (seqZ 0 m) p); [|apply NoDup_seqZ|done|].
    + f_equal. apply list_filter_iff. intros x. rewrite NoDup_cons. tauto.
    + intros x Hx. rewrite Forall_forall in Hrange. apply Hrange in Hx.
      apply elem_of_seqZ. lia.
  - induction (seqZ 0 m) as [|y ys IHys]; [done|].
    rewrite filter_cons, decide_False; [done|].
    rewrite NoDup_cons. tauto.
Qed.

Lemma num_injective_fact (n : nat) (m : Z) :
  (n ≤ Z.to_nat m)%nat →
  (num_injective n m * fact (Z.to_nat m - n) = fact (Z.to_nat m))%nat.
Proof.
  induction n as [|n IH]; intros Hn.
  - unfold num_injective. simpl. rewrite Nat.sub_0_r. lia.
  - rewrite num_injective_succ, <- IH by lia.
    replace (Z.to_nat m - n)%nat with (S (Z.to_nat m - S n)) by lia.
    simpl fact. lia.
Qed.

Lemma num_complete_square (m : Z) :
  0 ≤ m → num_complete (Z.to_nat m) m = Z.of_nat (fact (Z.to_nat m)).
Proof.
  intros Hm. pose proof (num_injective_fact (Z.to_nat m) m) as Hfact.
  rewrite Nat.sub_diag in Hfact. simpl fact in Hfact.
  rewrite <- Hfact, Nat.mul_1_r by lia.
  unfold num_complete, num_injective, len. do 2 f_equal.
  apply filter_iff_in. intros p Hp.
  apply all_packages_spec in Hp as [Hlen _]. unfold has_all_types.
  destruct (get_num_unique_full_iff_NoDup p) as [_ Hiff].
  rewrite <- Hiff. unfold len. rewrite Hlen. lia.
Qed.

(** With as many draws as categories, a package holds all m categories
    exactly when it repeats none, so the probability is m! / m^m; in exact
    arithmetic this is the expected estimate of a trial of
    run_single_trial(num_samples, m, m). *)
Theorem prob_all_types_square (ns m : Z) :
  0 < ns → 1 ≤ m →
  (prob_all_types m m
   == inject_Z (Z.of_nat (fact (Z.to_nat m))) / inject_Z (m ^ m))%Q
  ∧ (expected_estimate (RD:=exact_rounding) ns m m
     == inject_Z (Z.of_nat (fact (Z.to_nat m))) / inject_Z (m ^ m))%Q.
Proof.
  intros Hns Hm.
  assert (Hprob : (prob_all_types m m
                   == inject_Z (Z.of_nat (fact (Z.to_nat m)))
                      / inject_Z (m ^ m))%Q).
  { unfold prob_all_types.
    rewrite num_complete_square, length_all_packages, Z2Nat.id by lia.
    reflexivity. }
  split; [done|]. rewrite expected_estimate_exact by lia. done.
Qed.

Lemma prob_all_types_square_witness :
  (prob_all_types 12 12
   == inject_Z (Z.of_nat (fact (Z.to_nat 12))) / inject_Z (12 ^ 12))%Q
  ∧ (expected_estimate (RD:=exact_rounding) 1000000 12 12
     == inject_Z (Z.of_nat (fact (Z.to_nat 12))) / inject_Z (12 ^ 12))%Q.
Proof. apply (prob_all_types_square 1000000 12); lia. Defined.

Example prob_all_types_three :
  (prob_all_types 3 3 == inject_Z (Z.of_nat (fact 3)) / inject_Z (3 ^ 3))%Q
  ∧ (inject_Z (Z.of_nat (fact 3)) / inject_Z (3 ^ 3) == 2 # 9)%Q.
Proof. split; reflexivity. Qed.
